(** * The switch node of Node-RED (nodes/core/logic/10-switch.js)

    A shallow embedding of the conditional message router and the
    properties of its rule engine, its split-side buffer (pendingIn) and
    its join-side regrouper (pendingOut).

    Conventions of the embedding.
    - A JavaScript value is a [value]; numbers are the integers together
      with NaN (positions, counts and the buffer counter are integers).
    - An object used as a dictionary (pendingIn, pendingOut, received, the
      bindings of a prepared expression) is a [gmap] with string keys; a group identity is the property key it
      denotes (names inherited from Object.prototype are not modelled).
    - The calls into the host (RED.util, RED.settings) and the parts of the
      JavaScript runtime that work on the text of strings (parsing a number,
      regular expressions, JSON.parse) are fields of the records [host] and
      [runtime]; every definition and theorem is parametric in them.
    - Mutable variables of the node are the fields of [state]; what the
      node emits (node.send, node.error, node.warn) is appended to the
      field [trace]. *)

From Stdlib Require Import ZArith String Ascii List Bool Lia.
From stdpp Require Import base option list gmap strings pretty.

Local Open Scope Z_scope.

(** ** JavaScript values *)

Inductive number :=
  | NaN
  | Num (z : Z).

Inductive objkind := KArray | KBuffer | KFunction | KPlain.

(** An object is known by its reference, by what [Array.isArray],
    [Buffer.isBuffer] and [typeof] say of it, and by the string its
    conversion to a primitive gives. *)
Record object := { o_ref : positive; o_kind : objkind; o_text : string }.

Inductive value :=
  | VUndefined
  | VNull
  | VBool (b : bool)
  | VNum (n : number)
  | VStr (s : string)
  | VObj (o : object).

Definition VInt (z : Z) : value := VNum (Num z).

(** What the runtime does with the text of a string. [RegExpTest p i s] is
    [None] when [new RegExp(p, ...)] throws a SyntaxError, and otherwise
    tells whether [s.match] finds a match ([i]: case-insensitive). *)
Class runtime := {
  StringToNumber : string -> number;
  RegExpTest : string -> bool -> string -> option bool;
  JSONParses : string -> bool
}.

Inductive exn :=
  | TypeError
  | SyntaxError
  | HostError.

Section Values.
Context {RT : runtime}.

Definition ToPrimitive (x : value) : value :=
  match x with
  | VObj o => VStr (o_text o)
  | _ => x
  end.

Definition ToNumber (x : value) : number :=
  match x with
  | VUndefined => NaN
  | VNull => Num 0
  | VBool b => Num (if b then 1 else 0)
  | VNum n => n
  | VStr s => StringToNumber s
  | VObj o => StringToNumber (o_text o)
  end.

(** [x + ""] *)
Definition ToString (x : value) : string :=
  match x with
  | VUndefined => "undefined"
  | VNull => "null"
  | VBool b => if b then "true" else "false"
  | VNum NaN => "NaN"
  | VNum (Num z) => pretty z
  | VStr s => s
  | VObj o => o_text o
  end.

Definition truthy (x : value) : bool :=
  match x with
  | VUndefined | VNull => false
  | VBool b => b
  | VNum NaN => false
  | VNum (Num z) => negb (z =? 0)
  | VStr s => negb (String.eqb s "")
  | VObj _ => true
  end.

Definition isNaN (n : number) : bool :=
  match n with NaN => true | Num _ => false end.

Definition num_eq (a b : number) : bool :=
  match a, b with
  | Num x, Num y => x =? y
  | _, _ => false
  end.

Definition num_sub (a b : number) : number :=
  match a, b with
  | Num x, Num y => Num (x - y)
  | _, _ => NaN
  end.

(** [x === y] *)
Definition strict_eq (x y : value) : bool :=
  match x, y with
  | VUndefined, VUndefined => true
  | VNull, VNull => true
  | VBool a, VBool b => Bool.eqb a b
  | VNum a, VNum b => num_eq a b
  | VStr a, VStr b => String.eqb a b
  | VObj a, VObj b => Pos.eqb (o_ref a) (o_ref b)
  | _, _ => false
  end.

(** [x == y] *)
Definition loose_eq (x y : value) : bool :=
  match x, y with
  | VUndefined, VUndefined | VUndefined, VNull
  | VNull, VUndefined | VNull, VNull => true
  | VUndefined, _ | VNull, _ | _, VUndefined | _, VNull => false
  | VObj a, VObj b => Pos.eqb (o_ref a) (o_ref b)
  | _, _ =>
      match ToPrimitive x, ToPrimitive y with
      | VStr a, VStr b => String.eqb a b
      | px, py => num_eq (ToNumber px) (ToNumber py)
      end
  end.

(** The abstract relational comparison [x < y]: [None] is its
    undefined answer (an operand converts to NaN). *)
Definition js_lt (x y : value) : option bool :=
  match ToPrimitive x, ToPrimitive y with
  | VStr a, VStr b => Some (String.ltb a b)
  | px, py =>
      match ToNumber px, ToNumber py with
      | Num a, Num b => Some (a <? b)
      | _, _ => None
      end
  end.

Definition is_true (o : option bool) : bool :=
  match o with Some true => true | _ => false end.
Definition is_false (o : option bool) : bool :=
  match o with Some false => true | _ => false end.

Definition lt_ (a b : value) : bool := is_true (js_lt a b).
Definition gt_ (a b : value) : bool := is_true (js_lt b a).
Definition lte_ (a b : value) : bool := is_false (js_lt b a).
Definition gte_ (a b : value) : bool := is_false (js_lt a b).

Definition typeof (x : value) : string :=
  match x with
  | VUndefined => "undefined"
  | VNull => "object"
  | VBool _ => "boolean"
  | VNum _ => "number"
  | VStr _ => "string"
  | VObj o => match o_kind o with KFunction => "function" | _ => "object" end
  end.

Definition isArray (x : value) : bool :=
  match x with
  | VObj o => match o_kind o with KArray => true | _ => false end
  | _ => false
  end.

Definition isBuffer (x : value) : bool :=
  match x with
  | VObj o => match o_kind o with KBuffer => true | _ => false end
  | _ => false
  end.

(** [s.indexOf(t) != -1] *)
Fixpoint includes (s t : string) : bool :=
  String.prefix t s ||
  match s with
  | EmptyString => false
  | String _ s' => includes s' t
  end.

End Values.

(** ** Messages *)

(** The [parts] block of a message; a field is [None] when
    [hasOwnProperty] is false for it. *)
Record parts := {
  p_id : option string;
  p_index : option value;
  p_count : option value
}.

(** A message: its own properties other than [parts], in the order of
    their creation, and [parts]. *)
Record msg := {
  m_fields : list (string * value);
  m_parts : option parts
}.

(** Reading a property that may be absent. *)
Definition get (o : option value) : value :=
  match o with
  | Some x => x
  | None => VUndefined
  end.

(** ** The operator table (lines 20-60) *)

Inductive operator :=
  | t_eq | t_neq | t_lt | t_lte | t_gt | t_gte | t_btwn | t_cont | t_regex
  | t_true | t_false | t_null | t_nnull | t_istype
  | t_head | t_tail | t_index | t_jsonata_exp | t_else.

Section Operators.
Context {RT : runtime}.

Definition istype (a b : value) : bool :=
  if strict_eq b (VStr "array") then isArray a
  else if strict_eq b (VStr "buffer") then isBuffer a
  else if strict_eq b (VStr "json") then JSONParses (ToString a)
  else if strict_eq b (VStr "null") then strict_eq a VNull
  else strict_eq (VStr (typeof a)) b && negb (isArray a)
       && negb (isBuffer a) && negb (strict_eq a VNull).

(** [operators[t](a, b, c, d, parts)], as the truth value the caller
    tests; [inl e] when the call throws [e]. The positional operators
    read [parts.index] and [parts.count] and throw a TypeError when
    [parts] is undefined. *)
Definition operators (t : operator) (a b c d : value)
    (ps : option parts) : exn + bool :=
  match t with
  | t_eq => inr (loose_eq a b)
  | t_neq => inr (negb (loose_eq a b))
  | t_lt => inr (lt_ a b)
  | t_lte => inr (lte_ a b)
  | t_gt => inr (gt_ a b)
  | t_gte => inr (gte_ a b)
  | t_btwn => inr (gte_ a b && lte_ a c)
  | t_cont => inr (includes (ToString a) (ToString b))
  | t_regex =>
      let pattern := match b with VUndefined => "" | _ => ToString b end in
      match RegExpTest pattern (truthy d) (ToString a) with
      | Some r => inr r
      | None => inl SyntaxError
      end
  | t_true => inr (strict_eq a (VBool true))
  | t_false => inr (strict_eq a (VBool false))
  | t_null => inr (String.eqb (typeof a) "undefined" || strict_eq a VNull)
  | t_nnull =>
      inr (negb (String.eqb (typeof a) "undefined") && negb (strict_eq a VNull))
  | t_istype => inr (istype a b)
  | t_head =>
      match ps with
      | None => inl TypeError
      | Some p =>
          let count := VNum (ToNumber b) in
          inr (lt_ (get (p_index p)) count)
      end
  | t_tail =>
      match ps with
      | None => inl TypeError
      | Some p =>
          let count := ToNumber b in
          inr (lte_ (VNum (num_sub (ToNumber (get (p_count p))) count))
                       (get (p_index p)))
      end
  | t_index =>
      match ps with
      | None => inl TypeError
      | Some p =>
          let min := VNum (ToNumber b) in
          let max := VNum (ToNumber c) in
          let index := get (p_index p) in
          inr (lte_ min index && lte_ index max)
      end
  | t_jsonata_exp => inr (strict_eq b (VBool true))
  | t_else => inr (strict_eq a (VBool true))
  end.

End Operators.

(** ** Rules, the host and the state of a node *)

(** A prepared JSONata expression: its source and the variables bound
    with [exp.assign]. *)
Record jexpr := {
  j_source : string;
  j_bindings : gmap string value
}.

Definition assign (k : string) (x : value) (exp : jexpr) : jexpr :=
  {| j_source := j_source exp; j_bindings := <[k:=x]> (j_bindings exp) |}.

(** What [rule.v], [rule.v2] and [node.property] hold: a value of the
    configuration, or the expression prepared from it. *)
Inductive operand :=
  | OVal (x : value)
  | OExpr (exp : jexpr).

(** A type tag ([rule.vt], [rule.v2t]) is [None] when undefined. *)
Record rule := {
  r_t : operator;
  r_v : operand;
  r_vt : option string;
  r_v2 : operand;
  r_v2t : option string;
  r_case : value
}.

(** The collaborators of RED.util, where [None] is a thrown exception,
    and the setting read from RED.settings, [None] when it is not set.
    [generateId] is applied to a counter kept in the state. *)
Class host := {
  prepareJSONataExpression : value -> option jexpr;
  evaluateJSONataExpression : jexpr -> msg -> option value;
  evaluateNodeProperty : operand -> option string -> msg -> option value;
  generateId : nat -> string;
  cloneMessage : msg -> msg;
  nodeMessageBufferMaxLength : option Z
}.

Inductive report :=
  | invalid_expr
  | too_many.

(** What a node does to the outside. [EvRules m] is a ghost event: it
    marks the entry of [m] into the rule evaluation (line 344) and is
    there for the statements about what the rule engine receives. *)
Inductive event :=
  | EvSend (ports : list (option msg))
  | EvError (r : report) (m : option msg)
  | EvWarn (e : exn)
  | EvRules (m : msg).

Record in_group := {
  g_count : value;
  g_msgs : list msg;
  g_seq_no : Z
}.

Record out_group := { onwards : list (list (option msg)) }.

(** The fields of a node fixed by its constructor. *)
Record node := {
  property : operand;
  propertyType : string;
  checkall : value;
  repair : bool;
  needsCount : bool
}.

Record state := {
  rules : list rule;
  previousValue : value;
  pendingCount : Z;
  pendingId : Z;
  pendingIn : gmap string in_group;
  pendingOut : gmap string out_group;
  received : gmap string Z;
  fresh : nat;
  trace : list event
}.

Definition emit (e : event) (st : state) : state :=
  {| rules := rules st; previousValue := previousValue st;
     pendingCount := pendingCount st; pendingId := pendingId st;
     pendingIn := pendingIn st; pendingOut := pendingOut st;
     received := received st; fresh := fresh st;
     trace := trace st ++ [e] |}.

Definition with_rules (rs : list rule) (st : state) : state :=
  {| rules := rs; previousValue := previousValue st;
     pendingCount := pendingCount st; pendingId := pendingId st;
     pendingIn := pendingIn st; pendingOut := pendingOut st;
     received := received st; fresh := fresh st; trace := trace st |}.

Definition with_previousValue (x : value) (st : state) : state :=
  {| rules := rules st; previousValue := x;
     pendingCount := pendingCount st; pendingId := pendingId st;
     pendingIn := pendingIn st; pendingOut := pendingOut st;
     received := received st; fresh := fresh st; trace := trace st |}.

Definition with_pendingCount (c : Z) (st : state) : state :=
  {| rules := rules st; previousValue := previousValue st;
     pendingCount := c; pendingId := pendingId st;
     pendingIn := pendingIn st; pendingOut := pendingOut st;
     received := received st; fresh := fresh st; trace := trace st |}.

Definition with_pendingId (c : Z) (st : state) : state :=
  {| rules := rules st; previousValue := previousValue st;
     pendingCount := pendingCount st; pendingId := c;
     pendingIn := pendingIn st; pendingOut := pendingOut st;
     received := received st; fresh := fresh st; trace := trace st |}.

Definition with_pendingIn (p : gmap string in_group) (st : state) : state :=
  {| rules := rules st; previousValue := previousValue st;
     pendingCount := pendingCount st; pendingId := pendingId st;
     pendingIn := p; pendingOut := pendingOut st;
     received := received st; fresh := fresh st; trace := trace st |}.

Definition with_pendingOut (p : gmap string out_group) (st : state) : state :=
  {| rules := rules st; previousValue := previousValue st;
     pendingCount := pendingCount st; pendingId := pendingId st;
     pendingIn := pendingIn st; pendingOut := p;
     received := received st; fresh := fresh st; trace := trace st |}.

Definition with_received (p : gmap string Z) (st : state) : state :=
  {| rules := rules st; previousValue := previousValue st;
     pendingCount := pendingCount st; pendingId := pendingId st;
     pendingIn := pendingIn st; pendingOut := pendingOut st;
     received := p; fresh := fresh st; trace := trace st |}.

Definition with_fresh (n : nat) (st : state) : state :=
  {| rules := rules st; previousValue := previousValue st;
     pendingCount := pendingCount st; pendingId := pendingId st;
     pendingIn := pendingIn st; pendingOut := pendingOut st;
     received := received st; fresh := n; trace := trace st |}.

(** [clearPending] (lines 434-440) *)
Definition clearPending (st : state) : state :=
  {| rules := rules st; previousValue := previousValue st;
     pendingCount := 0; pendingId := 0;
     pendingIn := ∅; pendingOut := ∅; received := ∅;
     fresh := fresh st; trace := trace st |}.

Definition has {A} (o : option A) : bool :=
  match o with Some _ => true | None => false end.

Definition tag_is (o : option string) (s : string) : bool :=
  match o with
  | Some x => String.eqb x s
  | None => false
  end.

Definition is_else (t : operator) : bool :=
  match t with t_else => true | _ => false end.

Definition is_jsonata_exp (t : operator) : bool :=
  match t with t_jsonata_exp => true | _ => false end.

(** [msg.hasOwnProperty("parts") && msg.parts.hasOwnProperty("id") &&
    msg.parts.hasOwnProperty("index")] (lines 336-338) *)
Definition hasParts (m : msg) : bool :=
  match m_parts m with
  | Some p => has (p_id p) && has (p_index p)
  | None => false
  end.

Definition with_v (x : operand) (r : rule) : rule :=
  {| r_t := r_t r; r_v := x; r_vt := r_vt r;
     r_v2 := r_v2 r; r_v2t := r_v2t r; r_case := r_case r |}.

(** [msg.parts.count = count] (line 259); the messages of a group all
    carry [parts]. *)
Definition set_count (count : value) (m : msg) : msg :=
  match m_parts m with
  | Some p =>
      {| m_fields := m_fields m;
         m_parts := Some {| p_id := p_id p; p_index := p_index p;
                            p_count := Some count |} |}
  | None => m
  end.

(** ** The node (lines 220-448) *)

(** How one pass over the rules ends: the loop ran to its end or to its
    [break] ([Completed], with the final no-prior-match flag and the
    array [onward]); [node.error] was called for an expression that
    failed, followed by [return] ([Reported]); or an exception reached
    the [catch] of [processMessage] ([Raised]). *)
Inductive outcome :=
  | Completed (elseflag : bool) (onward : list (option msg))
  | Reported
  | Raised (e : exn).

(** How the test of one rule ends: the operator answered true
    ([Matched]) or false ([Unmatched], with the flag as the rule leaves
    it), an expression of the rule failed ([Failed]), or the operator
    threw ([Threw]). *)
Inductive verdict :=
  | Matched
  | Unmatched (elseflag : bool)
  | Failed
  | Threw (e : exn).

Definition push (slot : option msg) (o : outcome) : outcome :=
  match o with
  | Completed f onward => Completed f (slot :: onward)
  | _ => o
  end.

Section Node.
Context {RT : runtime}.
Context {RED : host}.
Variable nd : node.

(** Lines 348-353. *)
Definition getProperty (m : msg) : option value :=
  if String.eqb (propertyType nd) "jsonata" then
    match property nd with
    | OExpr exp => evaluateJSONataExpression exp m
    | OVal _ => None
    end
  else evaluateNodeProperty (property nd) (Some (propertyType nd)) m.

(** Lines 362-390. The rule comes back with the variables I and N
    assigned to its expression; [None] is the failure of the
    expression, reported by the caller. *)
Definition getV1 (prev : value) (m : msg) (r : rule) : rule * option value :=
  if tag_is (r_vt r) "prev" then (r, Some prev)
  else if tag_is (r_vt r) "jsonata" then
    match r_v r with
    | OExpr exp =>
        let exp' :=
          if is_jsonata_exp (r_t r) && hasParts m then
            match m_parts m with
            | Some p => assign "N" (get (p_count p))
                          (assign "I" (get (p_index p)) exp)
            | None => exp
            end
          else exp in
        (with_v (OExpr exp') r, evaluateJSONataExpression exp' m)
    | OVal _ => (r, None)
    end
  else if tag_is (r_vt r) "json" then (r, Some (VStr "json"))
  else if tag_is (r_vt r) "null" then (r, Some (VStr "null"))
  else (r, Some (get (evaluateNodeProperty (r_v r) (r_vt r) m))).

(** Lines 392-410. *)
Definition getV2 (prev : value) (m : msg) (r : rule) : option value :=
  if tag_is (r_v2t r) "prev" then Some prev
  else if tag_is (r_v2t r) "jsonata" then
    match r_v2 r with
    | OExpr exp => evaluateJSONataExpression exp m
    | OVal _ => None
    end
  else
    match r_v2 r with
    | OVal VUndefined => Some VUndefined
    | v2 => Some (get (evaluateNodeProperty v2 (r_v2t r) m))
    end.

(** [node.checkall == "false"] (line 417) *)
Definition firstMatch : bool := loose_eq (checkall nd) (VStr "false").

(** The body of the loop (lines 358-420) for one rule, up to the test
    of line 414: the operands are resolved, an else rule takes the flag
    as its test value and resets it, the operator is applied. *)
Definition applyRule (prev prop : value) (m : msg) (elseflag : bool)
    (rule0 : rule) : rule * verdict :=
  let (rule, v1) := getV1 prev m rule0 in
  match v1 with
  | None => (rule, Failed)
  | Some v1 =>
      match getV2 prev m rule with
      | None => (rule, Failed)
      | Some v2 =>
          let test := if is_else (r_t rule) then VBool elseflag else prop in
          let elseflag := if is_else (r_t rule) then true else elseflag in
          match operators (r_t rule) test v1 v2 (r_case rule) (m_parts m) with
          | inl e => (rule, Threw e)
          | inr true => (rule, Matched)
          | inr false => (rule, Unmatched elseflag)
          end
      end
  end.

(** The loop of lines 357-421, from the rules [rs] on, entered with
    the flag [elseflag]; the slots it pushes on [onward] come back in
    order, together with the rules as the loop leaves them. *)
Fixpoint applyRules (prev prop : value) (m : msg) (elseflag : bool)
    (rs : list rule) : list rule * outcome :=
  match rs with
  | [] => ([], Completed elseflag [])
  | rule0 :: rest =>
      match applyRule prev prop m elseflag rule0 with
      | (rule, Failed) => (rule :: rest, Reported)
      | (rule, Threw e) => (rule :: rest, Raised e)
      | (rule, Matched) =>
          if firstMatch then (rule :: rest, Completed false [Some m])
          else
            let (rest', o) := applyRules prev prop m false rest in
            (rule :: rest', push (Some m) o)
      | (rule, Unmatched elseflag) =>
          let (rest', o) := applyRules prev prop m elseflag rest in
          (rule :: rest', push None o)
      end
  end.

(** The loop was left by the [break] of line 417. *)
Definition broke (onward : list (option msg)) : bool :=
  firstMatch && existsb has onward.

(** [sendGroup] (lines 270-303). *)

(** Lines 271-277: one row of the counting loop. An index past the
    end of [onward] reads undefined, which is not null. *)
Definition count_row (counts : list Z) (onward : list (option msg)) : list Z :=
  imap (fun j c => c + match onward !! j with
                       | Some None => 0
                       | _ => 1
                       end) counts.

(** Lines 287-299 for port [j]. *)
Definition fill_port (onward : list (option msg)) (j : nat)
    (id : string) (count index : Z) : exn + (option msg * Z) :=
  match onward !! j with
  | Some (Some m) =>
      let new_msg := cloneMessage m in
      match m_parts new_msg with
      | Some _ =>
          inr (Some {| m_fields := m_fields new_msg;
                       m_parts := Some {| p_id := Some id;
                                          p_index := Some (VInt index);
                                          p_count := Some (VInt count) |} |},
               index + 1)
      | None => inl TypeError
      end
  | _ => inr (None, index)
  end.

(** The loop over [j] of lines 286-300, on the arrays [ids], [counts]
    and [indexes] from position [j] on. *)
Fixpoint fill_ports (onward : list (option msg)) (j : nat)
    (ids : list string) (counts indexes : list Z)
    : exn + (list (option msg) * list Z) :=
  match ids, counts, indexes with
  | id :: ids', c :: counts', ix :: indexes' =>
      match fill_port onward j id c ix with
      | inl e => inl e
      | inr (slot, ix') =>
          match fill_ports onward (S j) ids' counts' indexes' with
          | inl e => inl e
          | inr (ports, ixs) => inr (slot :: ports, ix' :: ixs)
          end
      end
  | _, _, _ => inr ([], [])
  end.

(** The loop over [i] of lines 284-302. *)
Fixpoint send_rows (ids : list string) (counts indexes : list Z)
    (ows : list (list (option msg))) (st : state) : state * option exn :=
  match ows with
  | [] => (st, None)
  | onward :: rest =>
      match fill_ports onward 0 ids counts indexes with
      | inl e => (st, Some e)
      | inr (ports, indexes') =>
          send_rows ids counts indexes' rest (emit (EvSend ports) st)
      end
  end.

Definition sendGroup (ows : list (list (option msg))) (port_count : nat)
    (st : state) : state * option exn :=
  let counts := foldl count_row (replicate port_count 0) ows in
  let ids := map (fun j => generateId (fresh st + j)%nat) (seq 0 port_count) in
  let st := with_fresh (fresh st + port_count)%nat st in
  let indexes := replicate port_count 0 in
  send_rows ids counts indexes ows st.

(** What port [j] gets for the array [onward] of a group: the message
    of its slot, if there is one, with the identity [id j], the index
    [index j] and the count [count j]. *)
Definition regrouped (id : nat -> string) (index count : nat -> Z)
    (onward : list (option msg)) (j : nat) : option msg :=
  match onward !! j with
  | Some (Some m) =>
      Some {| m_fields := m_fields (cloneMessage m);
              m_parts := Some {| p_id := Some (id j);
                                 p_index := Some (VInt (index j));
                                 p_count := Some (VInt (count j)) |} |}
  | _ => None
  end.

(** The copies of the messages of [onward] carry [parts]. *)
Definition cloned (onward : list (option msg)) : Prop :=
  forall m, Some m ∈ onward -> m_parts (cloneMessage m) <> None.

(** [getMaxKeptCount] (lines 64-75). *)
Definition getMaxKeptCount : Z := default 0 (nodeMessageBufferMaxLength).

(** [(max_msgs > 0) && (pendingCount > max_msgs)] *)
Definition overflow (st : state) : bool :=
  (0 <? getMaxKeptCount) && (getMaxKeptCount <? pendingCount st).

(** [sendGroupMessages] (lines 305-331); the caller has checked
    [hasParts]. *)
Definition sendGroupMessages (onward : list (option msg)) (m : msg)
    (st : state) : state * option exn :=
  match m_parts m with
  | None => (st, Some TypeError)
  | Some ps =>
      let gid := default "undefined" (p_id ps) in
      let n := default 0 (received st !! gid) + 1 in
      let st := with_received (<[gid:=n]> (received st)) st in
      let send_ok := strict_eq (VInt n) (get (p_count ps)) in
      let group := default {| onwards := [] |} (pendingOut st !! gid) in
      let ows := onwards group ++ [onward] in
      let st := with_pendingOut (<[gid:={| onwards := ows |}]> (pendingOut st)) st in
      let st := with_pendingCount (pendingCount st + 1) st in
      let (st, e) :=
        if send_ok then
          let (st, e) := sendGroup ows (length onward) st in
          match e with
          | Some _ => (st, e)
          | None =>
              let st := with_pendingCount (pendingCount st - Z.of_nat (length onward)) st in
              let st := with_pendingOut (delete gid (pendingOut st)) st in
              (with_received (delete gid (received st)) st, None)
          end
        else (st, None) in
      match e with
      | Some _ => (st, e)
      | None =>
          if overflow st
          then (emit (EvError too_many (Some m)) (clearPending st), None)
          else (st, None)
      end
  end.

(** [processMessage(msg, false)]: lines 344-431, the buffering of
    line 340 being skipped. *)
Definition processRules (m : msg) (st : state) : state :=
  let st := emit (EvRules m) st in
  match getProperty m with
  | None => emit (EvWarn HostError) st
  | Some prop =>
      let (rules', o) := applyRules (previousValue st) prop m true (rules st) in
      let st := with_rules rules' st in
      match o with
      | Reported => emit (EvError invalid_expr None) st
      | Raised e => emit (EvWarn e) st
      | Completed _ onward =>
          let st := with_previousValue prop st in
          if negb (repair nd) || negb (hasParts m) then emit (EvSend onward) st
          else
            let (st, e) := sendGroupMessages onward m st in
            match e with
            | Some e => emit (EvWarn e) st
            | None => st
            end
      end
  end.

(** The evaluation of [m] raises an exception: the property under
    test cannot be evaluated, or the pass over the rules does not run
    to its end. *)
Definition aborted (m : msg) (st : state) : bool :=
  match getProperty m with
  | None => true
  | Some prop =>
      match (applyRules (previousValue st) prop m true (rules st)).2 with
      | Completed _ _ => false
      | _ => true
      end
  end.

(** [addMessageToGroup] (lines 226-246). The group returned is the
    object stored under [id], unless [clearPending] has replaced
    [pendingIn] in between: then it is stored nowhere. *)
Definition addMessageToGroup (id : string) (m : msg) (ps : parts)
    (st : state) : in_group * state :=
  let st :=
    match pendingIn st !! id with
    | Some _ => st
    | None =>
        with_pendingId (pendingId st + 1)
          (with_pendingIn
             (<[id:={| g_count := VUndefined; g_msgs := [];
                       g_seq_no := pendingId st |}]> (pendingIn st)) st)
    end in
  let group := default {| g_count := VUndefined; g_msgs := []; g_seq_no := 0 |}
                 (pendingIn st !! id) in
  let group := {| g_count := g_count group; g_msgs := g_msgs group ++ [m];
                  g_seq_no := g_seq_no group |} in
  let st := with_pendingIn (<[id:=group]> (pendingIn st)) st in
  let st := with_pendingCount (pendingCount st + 1) st in
  if overflow st then
    let st := emit (EvError too_many (Some m)) (clearPending st) in
    let group :=
      match p_count ps with
      | Some c => {| g_count := c; g_msgs := g_msgs group;
                     g_seq_no := g_seq_no group |}
      | None => group
      end in
    (group, st)
  else
    match p_count ps with
    | Some c =>
        let group := {| g_count := c; g_msgs := g_msgs group;
                        g_seq_no := g_seq_no group |} in
        (group, with_pendingIn (<[id:=group]> (pendingIn st)) st)
    | None => (group, st)
    end.

(** [addMessageToPending] (lines 249-268); the caller has checked
    [hasParts], so [msg.parts] is defined. *)
Definition addMessageToPending (m : msg) (st : state) : bool * state :=
  match m_parts m with
  | None => (false, st)
  | Some ps =>
      match p_id ps, p_index ps with
      | Some id, Some _ =>
          let (group, st) := addMessageToGroup id m ps st in
          let msgs := g_msgs group in
          let count := g_count group in
          if strict_eq count (VInt (Z.of_nat (length msgs))) then
            let st := foldl (fun st m => processRules (set_count count m) st) st msgs in
            let st := with_pendingCount (pendingCount st - Z.of_nat (length msgs)) st in
            (true, with_pendingIn (delete id (pendingIn st)) st)
          else (true, st)
      | _, _ => (false, st)
      end
  end.

(** [processMessage] (lines 335-432). *)
Definition processMessage (m : msg) (checkParts : bool) (st : state) : state :=
  if needsCount nd && checkParts && hasParts m then
    let (buffered, st') := addMessageToPending m st in
    if buffered then st' else processRules m st'
  else processRules m st.

(** The handler of 'input' (lines 442-444) and a run of it over the
    messages that arrive, in order. *)
Definition input (st : state) (m : msg) : state := processMessage m true st.

Definition inputs (ms : list msg) (st : state) : state := foldl input st ms.

End Node.

(** ** The constructor (lines 152-224) *)

Section Constructor.
Context {RT : runtime}.
Context {RED : host}.

(** What the editor stores for a node. *)
Record config := {
  n_rules : list rule;
  n_property : value;
  n_propertyType : option string;
  n_checkall : value;
  n_repair : bool
}.

(** [!rule.vt] *)
Definition unset (tag : option string) : bool :=
  match tag with
  | None => true
  | Some s => String.eqb s ""
  end.

Definition Number (o : operand) : number :=
  match o with
  | OVal x => ToNumber x
  | OExpr _ => NaN
  end.

Definition prepare (o : operand) : option jexpr :=
  match o with
  | OVal x => prepareJSONataExpression x
  | OExpr _ => None
  end.

(** Lines 176-194; the boolean tells that the expression was refused. *)
Definition normalise_v (r : rule) : rule * bool :=
  let vt :=
    if unset (r_vt r)
    then (if negb (isNaN (Number (r_v r))) then Some "num" else Some "str")
    else r_vt r in
  let r := {| r_t := r_t r; r_v := r_v r; r_vt := vt;
              r_v2 := r_v2 r; r_v2t := r_v2t r; r_case := r_case r |} in
  if tag_is vt "num" then
    if negb (isNaN (Number (r_v r)))
    then (with_v (OVal (VNum (Number (r_v r)))) r, false)
    else (r, false)
  else if tag_is vt "jsonata" then
    match prepare (r_v r) with
    | Some exp => (with_v (OExpr exp) r, false)
    | None => (r, true)
    end
  else (r, false).

Definition with_v2 (x : operand) (tag : option string) (r : rule) : rule :=
  {| r_t := r_t r; r_v := r_v r; r_vt := r_vt r;
     r_v2 := x; r_v2t := tag; r_case := r_case r |}.

(** Lines 195-213. *)
Definition normalise_v2 (r : rule) : rule * bool :=
  match r_v2 r with
  | OVal VUndefined => (r, false)
  | v2 =>
      let v2t :=
        if unset (r_v2t r)
        then (if negb (isNaN (Number v2)) then Some "num" else Some "str")
        else r_v2t r in
      if tag_is v2t "num" then (with_v2 (OVal (VNum (Number v2))) v2t r, false)
      else if tag_is v2t "jsonata" then
        match prepare v2 with
        | Some exp => (with_v2 (OExpr exp) v2t r, false)
        | None => (with_v2 v2 v2t r, true)
        end
      else (with_v2 v2 v2t r, false)
  end.

Definition errors (refused : bool) : list event :=
  if refused then [EvError invalid_expr None] else [].

(** The loop of lines 173-214: the rules normalised, [needsCount],
    the errors reported and [valid]. *)
Fixpoint normalise (needs : bool) (rs : list rule)
    : list rule * bool * list event * bool :=
  match rs with
  | [] => ([], needs, [], true)
  | rule0 :: rest =>
      let needs := needs || (match r_t rule0 with
                             | t_tail | t_jsonata_exp => true
                             | _ => false
                             end) in
      let (rule1, bad1) := normalise_v rule0 in
      let (rule2, bad2) := normalise_v2 rule1 in
      let '(rest', needs', evs, valid) := normalise needs rest in
      (rule2 :: rest', needs', errors bad1 ++ errors bad2 ++ evs,
       negb bad1 && negb bad2 && valid)
  end.

(** [SwitchNode(n)]: the node and its first state when the
    configuration is valid, and what was reported. A node that is not
    valid registers no handler and processes no message. *)
Definition SwitchNode (n : config) : option (node * state) * list event :=
  let propertyType :=
    match n_propertyType n with
    | Some s => if String.eqb s "" then "msg" else s
    | None => "msg"
    end in
  let property :=
    if String.eqb propertyType "jsonata"
    then option_map OExpr (prepareJSONataExpression (n_property n))
    else Some (OVal (n_property n)) in
  match property with
  | None => (None, [EvError invalid_expr None])
  | Some property =>
      let checkall := if truthy (n_checkall n) then n_checkall n else VStr "true" in
      let '(rules, needsCount, evs, valid) := normalise (n_repair n) (n_rules n) in
      if valid then
        (Some ({| property := property; propertyType := propertyType;
                  checkall := checkall; repair := n_repair n;
                  needsCount := needsCount |},
               {| rules := rules; previousValue := VNull;
                  pendingCount := 0; pendingId := 0;
                  pendingIn := ∅; pendingOut := ∅; received := ∅;
                  fresh := 0; trace := [] |}),
         evs)
      else (None, evs)
  end.

End Constructor.

(** ** What a trace shows *)

(** The messages that entered the rule evaluation, in order. *)
Definition released (tr : list event) : list msg :=
  omap (fun e => match e with EvRules m => Some m | _ => None end) tr.

(** The arrays handed to [node.send], in order. *)
Definition sent (tr : list event) : list (list (option msg)) :=
  omap (fun e => match e with EvSend ports => Some ports | _ => None end) tr.

(** The slot [j] of [onward] holds a message. *)
Definition routes (j : nat) (onward : list (option msg)) : bool :=
  match onward !! j with
  | Some (Some _) => true
  | _ => false
  end.

(** The number of arrays of [ows] that hold a message for port [j]. *)
Definition routed (j : nat) (ows : list (list (option msg))) : Z :=
  Z.of_nat (length (List.filter (routes j) ows)).

(** [st'] comes from [st] by steps that evaluate no message: no message
    entered the rule evaluation, and the rules and [previousValue] are
    as they were. *)
Definition quiet (st st' : state) : Prop :=
  previousValue st' = previousValue st /\ rules st' = rules st /\
  exists evs, trace st' = trace st ++ evs /\ released evs = [].

(** The group of [id] once the message [m], with the block [ps], has
    joined it: [m] comes after the messages that wait already, and the
    count is the one [ps] declares, if it declares one. *)
Definition joined (id : string) (m : msg) (ps : parts) (st : state) : in_group :=
  let old := default {| g_count := VUndefined; g_msgs := []; g_seq_no := pendingId st |}
               (pendingIn st !! id) in
  {| g_count := default (g_count old) (p_count ps);
     g_msgs := g_msgs old ++ [m];
     g_seq_no := g_seq_no old |}.

(** The messages held in [pendingIn] and the decision arrays held in
    [pendingOut]. *)
Definition buffered (st : state) : Z :=
  map_fold (fun _ g n => n + Z.of_nat (length (g_msgs g))) 0 (pendingIn st)
  + map_fold (fun _ g n => n + Z.of_nat (length (onwards g))) 0 (pendingOut st).

(** ** The flag of the else rule, read off the slots of a pass *)

(** The no-prior-match flag after the rules [rs] were answered by the
    slots [onward], entered with [elseflag]. *)
Fixpoint flag_of (elseflag : bool) (rs : list rule)
    (onward : list (option msg)) : bool :=
  match rs, onward with
  | r :: rs', slot :: onward' =>
      flag_of (match slot with
               | Some _ => false
               | None => if is_else (r_t r) then true else elseflag
               end) rs' onward'
  | _, _ => elseflag
  end.

(** The position of the last else rule of [rs]; 0 when it has none. *)
Fixpoint since_else (rs : list rule) : nat :=
  match rs with
  | [] => 0
  | _ :: rs' =>
      if existsb (fun r => is_else (r_t r)) rs' then S (since_else rs') else 0
  end.

(** ** A host and a runtime to run the node on *)

Module Sample.

(** A runtime that reads decimal digits as a number and takes "(" for
    the pattern that is not a regular expression; any other pattern is
    searched as a plain text. *)
Fixpoint digits (s : string) (acc : Z) : number :=
  match s with
  | EmptyString => Num acc
  | String c s' =>
      let n := Z.of_nat (nat_of_ascii c) in
      if (48 <=? n) && (n <=? 57) then digits s' (10 * acc + (n - 48)) else NaN
  end.

Definition RT : runtime :=
  {| StringToNumber := fun s => digits s 0;
     RegExpTest := fun p _ s => if String.eqb p "(" then None else Some (includes s p);
     JSONParses := fun _ => false |}.

(** A host for which the expression $error() fails and any other
    expression reads the field of the message that has its name; a
    property of type msg is the field of that name. Identities are the
    decimal numbers of the counter, and a copy is the message itself. *)
Fixpoint field (k : string) (fs : list (string * value)) : value :=
  match fs with
  | [] => VUndefined
  | (k', x) :: fs' => if String.eqb k k' then x else field k fs'
  end.

Definition RED (max : option Z) : host :=
  {| prepareJSONataExpression := fun x =>
       match x with
       | VStr s => Some {| j_source := s; j_bindings := ∅ |}
       | _ => None
       end;
     evaluateJSONataExpression := fun exp m =>
       if String.eqb (j_source exp) "$error()" then None
       else Some (field (j_source exp) (m_fields m));
     evaluateNodeProperty := fun o tag m =>
       match o with
       | OVal x =>
           if tag_is tag "msg" then Some (field (ToString x) (m_fields m))
           else if tag_is tag "num" then Some (VNum (ToNumber (RT:=RT) x))
           else if tag_is tag "str" then Some (VStr (ToString x))
           else Some x
       | OExpr _ => None
       end;
     generateId := fun n => pretty n;
     cloneMessage := fun m => m;
     nodeMessageBufferMaxLength := max |}.

(** A fragment of the sequence [id], and a message outside sequences. *)
Definition frag (payload : value) (id : string) (index : Z) (count : option Z) : msg :=
  {| m_fields := [("payload", payload)];
     m_parts := Some {| p_id := Some id; p_index := Some (VInt index);
                        p_count := VInt <$> count |} |}.

Definition plain (payload : value) : msg :=
  {| m_fields := [("payload", payload)]; m_parts := None |}.

(** Rules as the editor stores them, with one or two operands, and the
    configuration of a node that tests msg.payload. *)
Definition rule1 (t : operator) (x : value) : rule :=
  {| r_t := t; r_v := OVal x; r_vt := None;
     r_v2 := OVal VUndefined; r_v2t := None; r_case := VUndefined |}.

Definition rule2 (t : operator) (x x2 : value) (tag2 : option string) : rule :=
  {| r_t := t; r_v := OVal x; r_vt := None;
     r_v2 := OVal x2; r_v2t := tag2; r_case := VUndefined |}.

Definition cfg (rs : list rule) (checkall : value) (repair : bool) : config :=
  {| n_rules := rs; n_property := VStr "payload"; n_propertyType := Some "msg";
     n_checkall := checkall; n_repair := repair |}.

(** The rules as the constructor leaves them. *)
Definition normalised (rs : list rule) : list rule :=
  (normalise (RT:=RT) (RED:=RED None) false rs).1.1.1.

(** A node that checks all rules, and one that stops at the first
    match; neither repairs sequences. *)
Definition exhaustive : node :=
  {| property := OVal (VStr "payload"); propertyType := "msg";
     checkall := VStr "true"; repair := false; needsCount := false |}.

Definition first_match : node :=
  {| property := OVal (VStr "payload"); propertyType := "msg";
     checkall := VStr "false"; repair := false; needsCount := false |}.

(** A node that waits for the count of a sequence, as the constructor
    builds it for a tail rule. *)
Definition counting : node :=
  {| property := OVal (VStr "payload"); propertyType := "msg";
     checkall := VStr "true"; repair := false; needsCount := true |}.

(** The first state of a node with the rules [rs]. *)
Definition first_state (rs : list rule) : state :=
  {| rules := normalised rs; previousValue := VNull;
     pendingCount := 0; pendingId := 0;
     pendingIn := ∅; pendingOut := ∅; received := ∅;
     fresh := 0; trace := [] |}.

(** A node built by the constructor, with the buffer bound [max]. *)
Definition boot (max : option Z) (c : config) : option (node * state) :=
  (SwitchNode (RT:=RT) (RED:=RED max) c).1.

(** The node built from [c], after the messages [ms] have arrived. *)
Definition run (max : option Z) (c : config) (ms : list msg) : option state :=
  match boot max c with
  | Some (nd, st) => Some (inputs (RT:=RT) (RED:=RED max) nd ms st)
  | None => None
  end.

End Sample.

(** ** What the buffers hold *)

(** The overflow errors of a trace, with the message each was reported
    for. *)
Definition overflows (tr : list event) : list (option msg) :=
  omap (fun e => match e with EvError too_many m => Some m | _ => None end) tr.

(** [m] is a fragment of the sequence [id]. *)
Definition fragment_of (id : string) (m : msg) : Prop :=
  exists ps, m_parts m = Some ps /\ p_id ps = Some id /\ has (p_index ps) = true.

(** A group that waits: it holds fragments of its sequence, at least
    one, and not as many as the count it knows. *)
Definition incomplete (id : string) (g : in_group) : Prop :=
  g_msgs g <> [] /\
  strict_eq (g_count g) (VInt (Z.of_nat (length (g_msgs g)))) = false /\
  Forall (fragment_of id) (g_msgs g).

(** Every group of [pendingIn] waits. *)
Definition waiting (st : state) : Prop :=
  forall id g, pendingIn st !! id = Some g -> incomplete id g.

(** The rule [r'] is the rule [r] but for the variables I and N of its
    expression, which only a rule of the kind jsonata_exp gets bound. *)
Definition same_rule (r r' : rule) : Prop :=
  r_t r' = r_t r /\ r_vt r' = r_vt r /\ r_v2 r' = r_v2 r /\
  r_v2t r' = r_v2t r /\ r_case r' = r_case r /\
  match r_v r, r_v r' with
  | OVal x, OVal x' => x' = x
  | OExpr exp, OExpr exp' =>
      j_source exp' = j_source exp /\
      (is_jsonata_exp (r_t r) = false -> exp' = exp) /\
      forall k, k <> "I" -> k <> "N" -> j_bindings exp' !! k = j_bindings exp !! k
  | _, _ => False
  end.

(** The rule needs the count of the sequence (line 175). *)
Definition counts_parts (r : rule) : bool :=
  match r_t r with
  | t_tail | t_jsonata_exp => true
  | _ => false
  end.

(** The operands of [r] that are tagged as expressions hold prepared
    expressions. *)
Definition prepared (r : rule) : Prop :=
  (tag_is (r_vt r) "jsonata" = true -> exists exp, r_v r = OExpr exp) /\
  (tag_is (r_v2t r) "jsonata" = true -> r_v2 r <> OVal VUndefined ->
   exists exp, r_v2 r = OExpr exp).

(** ** What a port receives *)

(** The messages that the arrays [rows] hold for port [j], in order. *)
Definition port_output (j : nat) (rows : list (list (option msg))) : list msg :=
  omap (fun ports => default None (ports !! j)) rows.

Section Sequences.
Context {RED : host}.

(** The copy of [m] as the fragment [k] of the sequence [id] of
    [count] messages. *)
Definition renumbered (id : string) (count : Z) (k : nat) (m : msg) : msg :=
  {| m_fields := m_fields (cloneMessage m);
     m_parts := Some {| p_id := Some id; p_index := Some (VInt (Z.of_nat k));
                        p_count := Some (VInt count) |} |}.

End Sequences.

(** The decision arrays held in [pendingOut] have a slot for every
    rule and hold fragments only. *)
Definition regular (st : state) : Prop :=
  forall gid g ow, pendingOut st !! gid = Some g -> ow ∈ onwards g ->
    length ow = length (rules st) /\ forall m, Some m ∈ ow -> m_parts m <> None.

(** For every sequence on the join side, [received] holds the number
    of the decision arrays that wait in [pendingOut]. *)
Definition tallied (st : state) : Prop :=
  forall gid,
    received st !! gid
    = (fun g => Z.of_nat (length (onwards g))) <$> (pendingOut st !! gid).

(** ** The fragments of a sequence *)

(** The errors and warnings of a trace. *)
Definition reports (tr : list event) : list event :=
  List.filter (fun e => match e with
                        | EvError _ _ | EvWarn _ => true
                        | _ => false
                        end) tr.

(** [m] is a fragment of the sequence [id] and announces [n]
    fragments. *)
Definition member (id : string) (n : Z) (m : msg) : Prop :=
  exists ps, m_parts m = Some ps /\ p_id ps = Some id /\
             has (p_index ps) = true /\ p_count ps = Some (VInt n).

(** The fragments that wait for the sequence [id]. *)
Definition held (id : string) (st : state) : list msg :=
  default [] (g_msgs <$> pendingIn st !! id).

(** [onward] is a decision array for [m] over [n] rules. *)
Definition decides (n : nat) (m : msg) (onward : list (option msg)) : Prop :=
  length onward = n /\ forall slot, slot ∈ onward -> slot = None \/ slot = Some m.

(** * Properties *)

(** ** The loop over the rules *)

Section Loop.
Context {RT : runtime} {RED : host}.
Variable nd : node.
Variables prev prop : value.
Variable m : msg.

(** Resolving the operands leaves the kind of a rule as it is. *)
Lemma getV1_t r : r_t (getV1 prev m r).1 = r_t r.
Proof.
  unfold getV1. repeat case_match; reflexivity.
Qed.

Lemma applyRule_t f r : r_t (applyRule prev prop m f r).1 = r_t r.
Proof.
  unfold applyRule. pose proof (getV1_t r) as H.
  destruct (getV1 prev m r) as [r1 v1]; simpl in H.
  repeat case_match; simpl; assumption.
Qed.

(** An else rule matches exactly when it is entered with the flag
    set, and leaves the flag set exactly when it does not match. *)
Lemma applyRule_else f r r' v :
  is_else (r_t r) = true -> applyRule prev prop m f r = (r', v) ->
  v = Failed \/ (f = true /\ v = Matched) \/ (f = false /\ v = Unmatched true).
Proof.
  intros He H. unfold applyRule in H.
  pose proof (getV1_t r) as Ht.
  destruct (getV1 prev m r) as [r1 v1]; simpl in Ht.
  rewrite <- Ht in He.
  destruct v1 as [v1|]; [|injection H as _ <-; auto].
  destruct (getV2 prev m r1) as [v2|]; [|injection H as _ <-; auto].
  rewrite He in H. destruct (r_t r1); try discriminate He.
  simpl in H. destruct f; simpl in H; injection H as _ <-; auto.
Qed.

(** A rule that is not an else rule leaves the flag as it found it
    when it does not match. *)
Lemma applyRule_other f r r' f' :
  is_else (r_t r) = false -> applyRule prev prop m f r = (r', Unmatched f') ->
  f' = f.
Proof.
  intros He H. unfold applyRule in H.
  pose proof (getV1_t r) as Ht.
  destruct (getV1 prev m r) as [r1 v1]; simpl in Ht.
  rewrite <- Ht in He.
  destruct v1 as [v1|]; [|discriminate].
  destruct (getV2 prev m r1) as [v2|]; [|discriminate].
  rewrite He in H.
  destruct (operators _ _ _ _ _ _) as [e|[|]]; congruence.
Qed.

Lemma applyRules_length f rs : length (applyRules nd prev prop m f rs).1 = length rs.
Proof.
  revert f. induction rs as [|r rs IH]; intros f; simpl; [reflexivity|].
  destruct (applyRule prev prop m f r) as [r1 [ |f1| |e]]; simpl; try reflexivity.
  - destruct (firstMatch nd); simpl; [reflexivity|].
    specialize (IH false). destruct (applyRules nd prev prop m false rs); simpl in *. congruence.
  - specialize (IH f1). destruct (applyRules nd prev prop m f1 rs); simpl in *. congruence.
Qed.

(** The slots of a pass that ran to its end answer the rules one for
    one; a pass left by [break] answers fewer of them. *)
Lemma applyRules_slots f rs rs' f' onward :
  applyRules nd prev prop m f rs = (rs', Completed f' onward) ->
  (length onward <= length rs)%nat /\
  (broke nd onward = false -> length onward = length rs).
Proof.
  revert f rs' f' onward. induction rs as [|r rs IH]; intros f rs' f' onward H; simpl in H.
  - injection H as _ _ <-. split; reflexivity.
  - destruct (applyRule prev prop m f r) as [r1 [ |f1| |e]]; try discriminate.
    + unfold broke. destruct (firstMatch nd) eqn:Hfm.
      * injection H as _ _ <-. simpl. split; [lia|discriminate].
      * destruct (applyRules nd prev prop m false rs) as [rest' o] eqn:Hrest.
        destruct o; try discriminate. injection H as _ _ <-.
        destruct (IH _ _ _ _ Hrest) as [Hle Heq]. unfold broke in Heq.
        rewrite Hfm in Heq. simpl in *. split; [lia|]. intros _. rewrite Heq; auto.
    + destruct (applyRules nd prev prop m f1 rs) as [rest' o] eqn:Hrest.
      destruct o; try discriminate. injection H as _ _ <-.
      destruct (IH _ _ _ _ Hrest) as [Hle Heq]. simpl. split; [lia|].
      intros Hb. rewrite Heq; [reflexivity|]. unfold broke in *. simpl in Hb. exact Hb.
Qed.

Lemma broke_nil : broke nd [] = false.
Proof. unfold broke. apply andb_false_r. Qed.

(** A pass over [pre ++ post] is the pass over [pre] followed, unless
    it was aborted or left by [break], by the pass over [post] with
    the flag that [pre] leaves. *)
Lemma applyRules_app f pre post :
  applyRules nd prev prop m f (pre ++ post) =
  match applyRules nd prev prop m f pre with
  | (pre', Completed f1 onward) =>
      if broke nd onward then (pre' ++ post, Completed f1 onward)
      else
        let (post', o) := applyRules nd prev prop m f1 post in
        (pre' ++ post', foldr push o onward)
  | (pre', o) => (pre' ++ post, o)
  end.
Proof.
  revert f. induction pre as [|r pre IH]; intros f; simpl.
  - rewrite broke_nil. destruct (applyRules nd prev prop m f post); reflexivity.
  - destruct (applyRule prev prop m f r) as [r1 [ |f1| |e]]; try reflexivity.
    + unfold broke. destruct (firstMatch nd) eqn:Hfm; [reflexivity|].
      rewrite IH. destruct (applyRules nd prev prop m false pre) as [pre' [f1 ow| |e]]; try reflexivity.
      simpl. unfold broke. rewrite Hfm. simpl.
      destruct (applyRules nd prev prop m f1 post); reflexivity.
    + rewrite IH. destruct (applyRules nd prev prop m f1 pre) as [pre' [f2 ow| |e]]; try reflexivity.
      simpl. unfold broke. simpl. destruct (firstMatch nd && existsb has ow); [reflexivity|].
      destruct (applyRules nd prev prop m f2 post); reflexivity.
Qed.

(** The flag a pass ends with is the one read off its slots. *)
Lemma applyRules_flag f rs rs' f' onward :
  applyRules nd prev prop m f rs = (rs', Completed f' onward) ->
  broke nd onward = false ->
  f' = flag_of f rs onward.
Proof.
  revert f rs' f' onward. induction rs as [|r rs IH]; intros f rs' f' onward H Hb; simpl in H.
  - injection H as _ <- <-. reflexivity.
  - destruct (applyRule prev prop m f r) as [r1 [ |f1| |e]] eqn:Hr; try discriminate.
    + unfold broke in Hb. destruct (firstMatch nd) eqn:Hfm.
      * injection H as _ _ <-. discriminate Hb.
      * destruct (applyRules nd prev prop m false rs) as [rest' o] eqn:Hrest.
        destruct o; try discriminate. injection H as _ <- <-. simpl.
        eapply IH; [exact Hrest|]. unfold broke. rewrite Hfm. reflexivity.
    + destruct (applyRules nd prev prop m f1 rs) as [rest' o] eqn:Hrest.
      destruct o; try discriminate. injection H as _ <- <-. simpl.
      assert (f1 = if is_else (r_t r) then true else f) as <-.
      { destruct (is_else (r_t r)) eqn:He.
        - destruct (applyRule_else _ _ _ _ He Hr) as [?|[[_ ?]|[_ ?]]]; congruence.
        - eapply applyRule_other; eauto. }
      eapply IH; [exact Hrest|]. exact Hb.
Qed.

(** In first-match mode the array is made of absence markers, closed
    by the message when a rule matched. *)
Lemma applyRules_firstMatch f rs rs' f' onward :
  firstMatch nd = true ->
  applyRules nd prev prop m f rs = (rs', Completed f' onward) ->
  onward = replicate (length rs) None \/
  exists k, (k < length rs)%nat /\ onward = replicate k None ++ [Some m].
Proof.
  intros Hfm. revert f rs' f' onward.
  induction rs as [|r rs IH]; intros f rs' f' onward H; simpl in H.
  - injection H as _ _ <-. left. reflexivity.
  - destruct (applyRule prev prop m f r) as [r1 [ |f1| |e]] eqn:Hr; try discriminate.
    + rewrite Hfm in H. injection H as _ _ <-. right. exists 0%nat. simpl. split; [lia|reflexivity].
    + destruct (applyRules nd prev prop m f1 rs) as [rest' o] eqn:Hrest.
      destruct o; try discriminate. injection H as _ _ <-.
      destruct (IH _ _ _ _ Hrest) as [->|(k & Hk & ->)].
      * left. reflexivity.
      * right. exists (S k). simpl. split; [lia|reflexivity].
Qed.

End Loop.

Lemma since_else_none rs :
  existsb (fun r => is_else (r_t r)) rs = false -> since_else rs = 0%nat.
Proof.
  destruct rs as [|r rs]; simpl; [reflexivity|].
  intros H. apply orb_false_elim in H as [_ ->]. reflexivity.
Qed.

(** The flag is set when no slot from the last else rule on holds a
    message; when there is no else rule, the flag must have been set on
    entry and no slot holds a message. *)
Lemma flag_of_window f rs onward :
  length onward = length rs ->
  flag_of f rs onward = true <->
  (existsb (fun r => is_else (r_t r)) rs = false -> f = true) /\
  (forall i, (since_else rs <= i < length rs)%nat -> onward !! i = Some None).
Proof.
  revert f onward. induction rs as [|r rs IH]; intros f onward Hlen.
  - destruct onward; [|discriminate]. simpl. split.
    + intros ->. split; [reflexivity|]. intros i Hi. lia.
    + intros [H _]. apply H. reflexivity.
  - destruct onward as [|s ow]; [discriminate|]. simpl in Hlen. injection Hlen as Hlen.
    cbn [flag_of]. rewrite (IH _ _ Hlen). cbn [existsb since_else length].
    destruct (existsb (fun r => is_else (r_t r)) rs) eqn:Hex.
    + rewrite orb_true_r. split.
      * intros [_ H]. split; [discriminate|]. intros i Hi.
        destruct i as [|i]; [lia|]. simpl. apply H. lia.
      * intros [_ H]. split; [discriminate|]. intros i Hi.
        apply (H (S i)). lia.
    + rewrite orb_false_r. rewrite (since_else_none _ Hex). split.
      * intros [Hf H]. specialize (Hf eq_refl).
        destruct s as [x|]; [discriminate|]. split.
        -- intros He. rewrite He in Hf. exact Hf.
        -- intros [|i] Hi; [reflexivity|]. simpl. apply H. lia.
      * intros [Hf H]. pose proof (H 0%nat ltac:(lia)) as H0. simpl in H0.
        injection H0 as ->. split.
        -- intros _. destruct (is_else (r_t r)); [reflexivity|]. apply Hf. reflexivity.
        -- intros i Hi. apply (H (S i)). lia.
Qed.

(** Slots pushed in front of an outcome. *)
Lemma foldr_push_Completed ow o f onward :
  foldr push o ow = Completed f onward ->
  exists ow2, o = Completed f ow2 /\ onward = ow ++ ow2.
Proof.
  revert onward. induction ow as [|s ow IH]; intros onward H; simpl in H.
  - exists onward. split; [exact H|reflexivity].
  - destruct (foldr push o ow) as [f1 ow1| |e] eqn:Hf; try discriminate.
    simpl in H. injection H as <- <-.
    destruct (IH _ eq_refl) as (ow2 & -> & ->). exists ow2. split; reflexivity.
Qed.

Lemma foldr_push_app ow f ow2 :
  foldr push (Completed f ow2) ow = Completed f (ow ++ ow2).
Proof. induction ow as [|s ow IH]; simpl; [reflexivity|]. rewrite IH. reflexivity. Qed.

Section ElseRule.
Context {RT : runtime} {RED : host}.
Variable nd : node.
Variables prev prop : value.
Variable m : msg.

(** A pass that reaches the rule after [pre] went through [pre]
    without [break], and goes on from there. *)
Lemma applyRules_reach f pre post rs' f' onward :
  applyRules nd prev prop m f (pre ++ post) = (rs', Completed f' onward) ->
  (length pre < length onward)%nat ->
  exists pre' post' ow1 ow2,
    applyRules nd prev prop m f pre = (pre', Completed (flag_of f pre ow1) ow1) /\
    broke nd ow1 = false /\ length ow1 = length pre /\
    applyRules nd prev prop m (flag_of f pre ow1) post = (post', Completed f' ow2) /\
    onward = ow1 ++ ow2.
Proof.
  intros H Hlen. rewrite applyRules_app in H.
  destruct (applyRules nd prev prop m f pre) as [pre' [f1 ow1| |e]] eqn:Hpre;
    try discriminate.
  destruct (applyRules_slots _ _ _ _ _ _ _ _ _ Hpre) as [Hle Heq].
  destruct (broke nd ow1) eqn:Hb.
  - injection H as _ _ <-. lia.
  - destruct (applyRules nd prev prop m f1 post) as [post' o] eqn:Hpost.
    injection H as _ H. apply foldr_push_Completed in H as (ow2 & -> & ->).
    pose proof (applyRules_flag _ _ _ _ _ _ _ _ _ Hpre Hb) as ->.
    exists pre', post', ow1, ow2. auto.
Qed.

(** Claim C2, as the code has it. In a pass that evaluates the else rule
    [r] standing after the rules [pre], the else rule matches exactly
    when no rule from the last else rule of [pre] on (that rule
    included; from the first rule on when [pre] has no else rule) has
    matched. The flag is set again before the else rule is tested and
    cleared when it matches: after the else rule the flag is set exactly
    when the else rule did not match. *)
Theorem else_matches_since_last_else pre r post rs' f onward :
  is_else (r_t r) = true ->
  applyRules nd prev prop m true (pre ++ r :: post) = (rs', Completed f onward) ->
  (length pre < length onward)%nat ->
  (onward !! length pre = Some (Some m) <->
   forall i, (since_else pre <= i < length pre)%nat -> onward !! i = Some None) /\
  exists rs1 f1,
    applyRules nd prev prop m true (pre ++ [r])
    = (rs1, Completed f1 (take (S (length pre)) onward)) /\
    (f1 = true <-> onward !! length pre = Some None).
Proof.
  intros He H Hlen.
  destruct (applyRules_reach _ _ _ _ _ _ H Hlen)
    as (pre' & post' & ow1 & ow2 & Hpre & Hb & Hl1 & Hpost & ->).
  pose proof (flag_of_window true pre ow1 Hl1) as Hw.
  rewrite applyRules_app, Hpre, Hb.
  rewrite <- Hl1 in Hw |- *.
  assert (Hwin : (forall i, (since_else pre <= i < length ow1)%nat ->
                    (ow1 ++ ow2) !! i = Some None) <->
                 flag_of true pre ow1 = true).
  { rewrite Hw. split.
    - intros Hi. split; [reflexivity|]. intros i Hi'.
      rewrite <- (lookup_app_l ow1 ow2 i) by lia. auto.
    - intros [_ Hi] i Hi'. rewrite lookup_app_l by lia. auto. }
  rewrite lookup_app_r by lia. rewrite Nat.sub_diag.
  replace (take (S (length ow1)) (ow1 ++ ow2)) with (ow1 ++ take 1 ow2)
    by (rewrite take_app, (take_ge ow1) by lia;
        replace (S (length ow1) - length ow1)%nat with 1%nat by lia; reflexivity).
  simpl in Hpost |- *.
  destruct (applyRule prev prop m (flag_of true pre ow1) r) as [r1 v] eqn:Hr.
  destruct (applyRule_else _ _ _ _ _ _ _ He Hr) as [->|[[Hf ->]|[Hf ->]]];
    [discriminate| |].
  - assert (exists rest, ow2 = Some m :: rest) as [rest ->].
    { destruct (firstMatch nd); [injection Hpost as _ _ <-; eauto|].
      destruct (applyRules nd prev prop m false post) as [? [? ow| |?]];
        try discriminate. injection Hpost as _ _ <-. eauto. }
    split.
    + simpl. rewrite Hwin. tauto.
    + exists (pre' ++ [r1]), false.
      destruct (firstMatch nd); simpl; rewrite ?foldr_push_app;
        (split; [reflexivity|]); split; discriminate.
  - destruct (applyRules nd prev prop m true post) as [? [? ow| |?]] eqn:Hp;
      try discriminate. injection Hpost as _ _ <-.
    split.
    + simpl. rewrite Hwin, Hf. split; discriminate.
    + exists (pre' ++ [r1]), true. simpl. rewrite foldr_push_app.
      split; [reflexivity|]. tauto.
Qed.

End ElseRule.

(** Claim C2, an instance: the rules true, else, else on a message whose
    payload is true. The second else rule matches, the first rule did
    too, and the flag ends cleared. *)
Lemma else_matches_since_last_else_witness :
  let rs := Sample.normalised [Sample.rule1 t_true VUndefined;
                               Sample.rule1 t_else VUndefined] in
  let r := {| r_t := t_else; r_v := OVal VUndefined; r_vt := Some "str";
              r_v2 := OVal VUndefined; r_v2t := None; r_case := VUndefined |} in
  let m := Sample.plain (VBool true) in
  let onward := [Some m; None; Some m] in
  (onward !! length rs = Some (Some m) <->
   forall i, (since_else rs <= i < length rs)%nat -> onward !! i = Some None) /\
  exists rs1 f1,
    applyRules (RT:=Sample.RT) (RED:=Sample.RED None) Sample.exhaustive
      VNull (VBool true) m true (rs ++ [r])
    = (rs1, Completed f1 (take (S (length rs)) onward)) /\
    (f1 = true <-> onward !! length rs = Some None).
Proof.
  intros rs r m onward.
  eapply (else_matches_since_last_else (RT:=Sample.RT) (RED:=Sample.RED None)
            Sample.exhaustive VNull (VBool true) m rs r []).
  - reflexivity.
  - vm_compute. reflexivity.
  - vm_compute. lia.
Defined.

(** Claim C2 as stated fails. Neither does an else rule match exactly
    when no earlier rule of the pass matched, nor is the flag always set
    after an else rule: with the rules true, else, else and a payload
    that is true, the slots are message, null, message and the flag ends
    cleared. *)
Lemma else_after_else_matches :
  ~ (forall (RT : runtime) (RED : host) nd prev prop m rs i r rs' f onward,
       rs !! i = Some r -> is_else (r_t r) = true ->
       applyRules nd prev prop m true rs = (rs', Completed f onward) ->
       (i < length onward)%nat ->
       (onward !! i = Some (Some m) <->
        forall j, (j < i)%nat -> onward !! j = Some None)) /\
  ~ (forall (RT : runtime) (RED : host) nd prev prop m rs i r rs' f onward,
       rs !! i = Some r -> is_else (r_t r) = true ->
       applyRules nd prev prop m true (take (S i) rs) = (rs', Completed f onward) ->
       length onward = S i ->
       f = true).
Proof.
  pose (m := Sample.plain (VBool true)).
  pose (rs := Sample.normalised [Sample.rule1 t_true VUndefined;
                                 Sample.rule1 t_else VUndefined;
                                 Sample.rule1 t_else VUndefined]).
  assert (Hrun : applyRules (RT:=Sample.RT) (RED:=Sample.RED None)
                   Sample.exhaustive VNull (VBool true) m true rs
                 = (rs, Completed false [Some m; None; Some m]))
    by (vm_compute; reflexivity).
  split; intros H.
  - destruct (H Sample.RT (Sample.RED None) Sample.exhaustive VNull (VBool true) m
                rs 2%nat _ _ _ _ eq_refl eq_refl Hrun ltac:(simpl; lia)) as [H1 _].
    specialize (H1 eq_refl 0%nat ltac:(lia)). discriminate H1.
  - discriminate (H Sample.RT (Sample.RED None) Sample.exhaustive VNull (VBool true) m
                    rs 2%nat _ _ _ _ eq_refl eq_refl Hrun eq_refl).
Qed.

(** The observers of a trace follow its concatenation. *)
Lemma sent_app tr1 tr2 : sent (tr1 ++ tr2) = sent tr1 ++ sent tr2.
Proof. apply omap_app. Qed.

Lemma released_app tr1 tr2 : released (tr1 ++ tr2) = released tr1 ++ released tr2.
Proof. apply omap_app. Qed.

Section Pass.
Context {RT : runtime} {RED : host}.
Variable nd : node.

(** The rule after [pre] ends the pass when one of its expressions
    fails or its operator throws. *)
Lemma applyRules_stops prev prop m f pre pre' f1 ow r r' v post :
  applyRules nd prev prop m f pre = (pre', Completed f1 ow) ->
  broke nd ow = false ->
  applyRule prev prop m f1 r = (r', v) ->
  (v = Failed -> applyRules nd prev prop m f (pre ++ r :: post) = (pre' ++ r' :: post, Reported)) /\
  (forall e, v = Threw e ->
     applyRules nd prev prop m f (pre ++ r :: post) = (pre' ++ r' :: post, Raised e)).
Proof.
  intros Hpre Hb Hr. rewrite applyRules_app, Hpre, Hb. simpl. rewrite Hr.
  split; [intros ->|intros e ->]; simpl.
  - clear. induction ow; simpl; [reflexivity|]. injection IHow as ->. reflexivity.
  - clear. induction ow; simpl; [reflexivity|]. injection IHow as ->. reflexivity.
Qed.

Lemma getV1_v2 prev m r :
  r_v2 (getV1 prev m r).1 = r_v2 r /\ r_v2t (getV1 prev m r).1 = r_v2t r.
Proof. unfold getV1. repeat case_match; split; reflexivity. Qed.

(** What an aborted evaluation leaves behind. *)
Lemma processRules_aborted m st :
  aborted nd m st = true ->
  exists rs' report,
    processRules nd m st = emit report (with_rules rs' (emit (EvRules m) st)) /\
    (report = EvError invalid_expr None \/ exists e, report = EvWarn e).
Proof.
  unfold aborted, processRules. intros H.
  destruct (getProperty nd m) as [prop|].
  - simpl. destruct (applyRules nd (previousValue st) prop m true (rules st))
      as [rs' [f ow| |e]]; simpl in H; [discriminate| |].
    + exists rs', (EvError invalid_expr None). split; [reflexivity|]. left. reflexivity.
    + exists rs', (EvWarn e). split; [reflexivity|]. right. eauto.
  - exists (rules st), (EvWarn HostError). split.
    + destruct st; reflexivity.
    + right. eauto.
Qed.

(** Claim C8. When the evaluation of a message raises an exception (the
    property under test or an expression of a rule fails, or an operator
    throws, as for a pattern that is not a regular expression), nothing
    is sent for the message, the failure is reported once, and
    [previousValue] and the buffers are as before: the next message
    finds the node as this one found it. *)
Theorem evaluation_error_aborts m st :
  aborted nd m st = true ->
  let st' := processRules nd m st in
  (exists report,
     trace st' = trace st ++ [EvRules m; report] /\
     (report = EvError invalid_expr None \/ exists e, report = EvWarn e)) /\
  sent (trace st') = sent (trace st) /\
  previousValue st' = previousValue st /\
  pendingIn st' = pendingIn st /\ pendingOut st' = pendingOut st /\
  received st' = received st /\ pendingCount st' = pendingCount st /\
  pendingId st' = pendingId st /\ fresh st' = fresh st.
Proof.
  intros H. destruct (processRules_aborted m st H) as (rs' & report & Hst & Hrep).
  simpl. rewrite Hst. simpl. split; [|split].
  - exists report. rewrite <- app_assoc. split; [reflexivity|exact Hrep].
  - rewrite <- app_assoc, sent_app. simpl.
    destruct Hrep as [->|[e ->]]; simpl; apply app_nil_r.
  - repeat split.
Qed.


(** An evaluation is aborted when the property under test cannot be
    evaluated, and when the rule reached after [pre] fails or throws. *)
Lemma aborted_causes m st :
  (getProperty nd m = None -> aborted nd m st = true) /\
  (forall prop pre pre' f ow r r' v post,
     getProperty nd m = Some prop -> rules st = pre ++ r :: post ->
     applyRules nd (previousValue st) prop m true pre = (pre', Completed f ow) ->
     broke nd ow = false ->
     applyRule (previousValue st) prop m f r = (r', v) ->
     v = Failed \/ (exists e, v = Threw e) ->
     aborted nd m st = true).
Proof.
  unfold aborted. split.
  - intros ->. reflexivity.
  - intros prop pre pre' f ow r r' v post -> -> Hpre Hb Hr Hv.
    destruct (applyRules_stops _ _ _ _ _ _ _ _ _ _ _ post Hpre Hb Hr) as [H1 H2].
    destruct Hv as [->|[e ->]].
    + rewrite (H1 eq_refl). reflexivity.
    + rewrite (H2 e eq_refl). reflexivity.
Qed.

(** An expression that fails for operand 1 fails the rule. *)
Lemma applyRule_v1_fails prev prop m f r r' :
  getV1 prev m r = (r', None) -> applyRule prev prop m f r = (r', Failed).
Proof. unfold applyRule. intros ->. reflexivity. Qed.

(** An expression that fails for operand 2 fails the rule, whatever
    operand 1 resolves to. *)
Lemma applyRule_v2_fails prev prop m f r exp :
  tag_is (r_v2t r) "jsonata" = true -> r_v2 r = OExpr exp ->
  evaluateJSONataExpression exp m = None ->
  getV2 prev m r = None /\
  exists r', applyRule prev prop m f r = (r', Failed).
Proof.
  intros Htag Hv2 Hev.
  assert (Hg : forall r0, r_v2 r0 = r_v2 r -> r_v2t r0 = r_v2t r -> getV2 prev m r0 = None).
  { intros r0 E1 E2. unfold getV2. rewrite E1, E2, Hv2, Htag, Hev.
    destruct (r_v2t r) as [s|]; [|discriminate]. simpl in Htag.
    apply String.eqb_eq in Htag. subst s. reflexivity. }
  split; [apply Hg; reflexivity|].
  unfold applyRule. destruct (getV1_v2 prev m r) as [E1 E2].
  destruct (getV1 prev m r) as [r1 [v1|]]; simpl in *; [|eauto].
  rewrite (Hg r1 E1 E2). eauto.
Qed.

(** A pattern that is not a regular expression makes the rule throw. *)
Lemma applyRule_regex_malformed prev prop m f r r1 v1 v2 :
  r_t r = t_regex ->
  getV1 prev m r = (r1, Some v1) -> getV2 prev m r1 = Some v2 ->
  RegExpTest (match v1 with VUndefined => "" | _ => ToString v1 end)
    (truthy (r_case r1)) (ToString prop) = None ->
  applyRule prev prop m f r = (r1, Threw SyntaxError).
Proof.
  intros Ht H1 H2 Hre. unfold applyRule. rewrite H1, H2.
  pose proof (getV1_t prev m r) as E. rewrite H1 in E. simpl in E.
  rewrite E, Ht. simpl. rewrite Hre. reflexivity.
Qed.

(** Claim C3, as the code has it. When the expression that gives
    operand 2 of a rule fails, the failure is reported as an invalid
    expression and the message is given up: nothing is sent and
    [previousValue] stays. It is for the other sources of operand 2,
    read with [evaluateNodeProperty], that a failure resolves to
    undefined and the rule is tested with it. *)
Theorem operand2_expression_failure_aborts m st prop pre pre' f ow r post exp :
  getProperty nd m = Some prop ->
  rules st = pre ++ r :: post ->
  applyRules nd (previousValue st) prop m true pre = (pre', Completed f ow) ->
  broke nd ow = false ->
  tag_is (r_v2t r) "jsonata" = true -> r_v2 r = OExpr exp ->
  evaluateJSONataExpression exp m = None ->
  let st' := processRules nd m st in
  getV2 (previousValue st) m r = None /\
  trace st' = trace st ++ [EvRules m; EvError invalid_expr None] /\
  previousValue st' = previousValue st /\
  (forall r0 prev,
     tag_is (r_v2t r0) "prev" = false -> tag_is (r_v2t r0) "jsonata" = false ->
     r_v2 r0 <> OVal VUndefined ->
     evaluateNodeProperty (r_v2 r0) (r_v2t r0) m = None ->
     getV2 prev m r0 = Some VUndefined).
Proof.
  intros Hprop Hrules Hpre Hb Htag Hv2 Hev.
  destruct (applyRule_v2_fails (previousValue st) prop m f r exp Htag Hv2 Hev)
    as [Hg [r' Hr]].
  destruct (applyRules_stops _ _ _ _ _ _ _ _ _ _ _ post Hpre Hb Hr) as [Hstop _].
  specialize (Hstop eq_refl).
  simpl. split; [exact Hg|]. unfold processRules.
  rewrite Hprop. simpl. rewrite Hrules, Hstop. simpl.
  rewrite <- app_assoc. split; [reflexivity|]. split; [reflexivity|].
  intros r0 prev Hp Hj Hne Hnp. unfold getV2. rewrite Hp, Hj.
  destruct (r_v2 r0) as [[]|]; try (rewrite Hnp; reflexivity). congruence.
Qed.


End Pass.

(** [quiet] is a preorder, kept by what evaluates no message. *)
Lemma quiet_refl st : quiet st st.
Proof.
  repeat split. exists []. split; [symmetry; apply app_nil_r|reflexivity].
Qed.

Lemma quiet_trans st1 st2 st3 : quiet st1 st2 -> quiet st2 st3 -> quiet st1 st3.
Proof.
  intros (Hp1 & Hr1 & evs1 & Ht1 & He1) (Hp2 & Hr2 & evs2 & Ht2 & He2).
  split; [congruence|]. split; [congruence|].
  exists (evs1 ++ evs2). rewrite Ht2, Ht1, <- app_assoc, released_app, He1, He2.
  split; reflexivity.
Qed.

Lemma quiet_emit e st :
  (forall m, e <> EvRules m) -> quiet st (emit e st).
Proof.
  intros He. repeat split. exists [e]. split; [reflexivity|].
  destruct e; try reflexivity. exfalso. eapply He. reflexivity.
Qed.

Lemma quiet_same st st' :
  previousValue st' = previousValue st -> rules st' = rules st ->
  trace st' = trace st -> quiet st st'.
Proof.
  intros Hp Hr Ht. repeat split; try assumption.
  exists []. rewrite Ht. split; [symmetry; apply app_nil_r|reflexivity].
Qed.

Section Quiet.
Context {RT : runtime} {RED : host}.
Variable nd : node.

(** Sending a group evaluates no message. *)
Lemma send_rows_quiet ids counts indexes ows st :
  quiet st (send_rows ids counts indexes ows st).1.
Proof.
  revert indexes st. induction ows as [|onward ows IH]; intros indexes st; simpl.
  - apply quiet_refl.
  - destruct (fill_ports onward 0 ids counts indexes) as [e|[ports indexes']]; simpl.
    + apply quiet_refl.
    + eapply quiet_trans; [|apply IH]. apply quiet_emit. discriminate.
Qed.

Lemma sendGroup_quiet ows port_count st :
  quiet st (sendGroup ows port_count st).1.
Proof.
  unfold sendGroup. eapply quiet_trans; [|apply send_rows_quiet].
  apply quiet_same; reflexivity.
Qed.

Lemma sendGroupMessages_quiet onward m st :
  quiet st (sendGroupMessages onward m st).1.
Proof.
  unfold sendGroupMessages. destruct (m_parts m) as [ps|]; [|apply quiet_refl].
  set (gid := default "undefined" (p_id ps)).
  set (n := default 0 (received st !! gid) + 1).
  match goal with |- context [sendGroup ?ows ?pc ?s] =>
    pose proof (sendGroup_quiet ows pc s) as Hq;
    assert (Hs : quiet st s) by (apply quiet_same; reflexivity);
    destruct (sendGroup ows pc s) as [st1 e] end.
  simpl in Hq.
  destruct (strict_eq _ _).
  - destruct e as [e|]; simpl; [eapply quiet_trans; eassumption|].
    match goal with |- context [overflow ?s] => destruct (overflow s) end; simpl.
    + eapply quiet_trans; [exact Hs|]. eapply quiet_trans; [exact Hq|].
      eapply quiet_trans; [|apply quiet_emit; discriminate].
      apply quiet_same; reflexivity.
    + eapply quiet_trans; [exact Hs|]. eapply quiet_trans; [exact Hq|].
      apply quiet_same; reflexivity.
  - match goal with |- context [overflow ?s] => destruct (overflow s) end; simpl.
    + eapply quiet_trans; [|apply quiet_emit; discriminate].
      apply quiet_same; reflexivity.
    + apply quiet_same; reflexivity.
Qed.


(** Each evaluation lets exactly its message into the rule engine. *)
Lemma processRules_released m st :
  released (trace (processRules nd m st)) = released (trace st) ++ [m].
Proof.
  unfold processRules. destruct (getProperty nd m) as [prop|]; simpl;
    [|rewrite !released_app; simpl; rewrite app_nil_r; reflexivity].
  destruct (applyRules nd (previousValue st) prop m true (rules st))
    as [rs' [f ow| |e]]; simpl;
    try (rewrite !released_app; simpl; rewrite app_nil_r; reflexivity).
  destruct (negb (repair nd) || negb (hasParts m)); simpl;
    [rewrite !released_app; simpl; rewrite app_nil_r; reflexivity|].
  match goal with |- context [sendGroupMessages ?o ?m ?s] =>
    pose proof (sendGroupMessages_quiet o m s) as (_ & _ & evs & Ht & He);
    destruct (sendGroupMessages o m s) as [st1 e] end.
  simpl in Ht.
  destruct e as [e|]; simpl; rewrite Ht, !released_app, He; simpl;
    rewrite ?app_nil_r; reflexivity.
Qed.


(** The release of a group evaluates its messages in order. *)
Lemma release_released count msgs st :
  released (trace (foldl (fun st m => processRules nd (set_count count m) st) st msgs))
  = released (trace st) ++ map (set_count count) msgs.
Proof.
  revert st. induction msgs as [|x msgs IH]; intros st; simpl.
  - symmetry. apply app_nil_r.
  - rewrite IH, processRules_released, <- app_assoc. reflexivity.
Qed.

(** [addMessageToGroup] returns the group with the message joined, and
    either discards all that is buffered and reports it, or stores the
    group and counts the message. *)
Lemma addMessageToGroup_spec id m ps st :
  exists st',
    addMessageToGroup id m ps st = (joined id m ps st, st') /\
    quiet st st' /\
    ((0 <? getMaxKeptCount) && (getMaxKeptCount <? pendingCount st + 1) = true /\
     pendingIn st' = ∅ /\ pendingOut st' = ∅ /\ received st' = ∅ /\
     pendingCount st' = 0 /\
     trace st' = trace st ++ [EvError too_many (Some m)]
     \/
     (0 <? getMaxKeptCount) && (getMaxKeptCount <? pendingCount st + 1) = false /\
     pendingIn st' = <[id:=joined id m ps st]> (pendingIn st) /\
     pendingOut st' = pendingOut st /\ received st' = received st /\
     pendingCount st' = pendingCount st + 1 /\
     trace st' = trace st).
Proof.
  unfold addMessageToGroup, joined.
  destruct (pendingIn st !! id) as [old|] eqn:Hold; simpl.
  - rewrite lookup_insert_eq || rewrite Hold. simpl.
    unfold overflow at 1. simpl.
    destruct ((0 <? getMaxKeptCount) && (getMaxKeptCount <? pendingCount st + 1)) eqn:Hov.
    + eexists. split; [destruct (p_count ps); reflexivity|]. split.
      * eapply quiet_trans; [|apply quiet_emit; discriminate]. apply quiet_same; reflexivity.
      * left. repeat split.
    + destruct (p_count ps) as [c|]; simpl.
      * eexists. split; [reflexivity|]. split; [apply quiet_same; reflexivity|].
        right. simpl. rewrite insert_insert_eq. repeat split.
      * eexists. split; [reflexivity|]. split; [apply quiet_same; reflexivity|].
        right. repeat split.
  - rewrite lookup_insert_eq. simpl.
    unfold overflow at 1. simpl.
    destruct ((0 <? getMaxKeptCount) && (getMaxKeptCount <? pendingCount st + 1)) eqn:Hov.
    + eexists. split; [destruct (p_count ps); reflexivity|]. split.
      * eapply quiet_trans; [|apply quiet_emit; discriminate]. apply quiet_same; reflexivity.
      * left. repeat split.
    + destruct (p_count ps) as [c|]; simpl.
      * eexists. split; [reflexivity|]. split; [apply quiet_same; reflexivity|].
        right. simpl. rewrite !insert_insert_eq. repeat split.
      * eexists. split; [reflexivity|]. split; [apply quiet_same; reflexivity|].
        right. simpl. rewrite !insert_insert_eq. repeat split.
Qed.

End Quiet.

(** Steps that are [quiet] let no message into the rule engine. *)
Lemma quiet_released st st' : quiet st st' -> released (trace st') = released (trace st).
Proof.
  intros (_ & _ & evs & -> & He). rewrite released_app, He. apply app_nil_r.
Qed.

(** A message that has parts has an id and an index. *)
Lemma hasParts_inv m :
  hasParts m = true ->
  exists ps id ix, m_parts m = Some ps /\ p_id ps = Some id /\ p_index ps = Some ix.
Proof.
  unfold hasParts. destruct (m_parts m) as [ps|]; [|discriminate].
  destruct (p_id ps) as [id|] eqn:Hid; simpl; [|discriminate].
  destruct (p_index ps) as [ix|] eqn:Hix; simpl; [|discriminate].
  intros _. exists ps, id, ix. auto.
Qed.

Section Buffer.
Context {RT : runtime} {RED : host}.
Variable nd : node.

(** A released message goes straight to the rule evaluation. *)
Lemma processMessage_false m st :
  processMessage nd m false st = processRules nd m st.
Proof.
  unfold processMessage. rewrite andb_false_r. reflexivity.
Qed.

(** What the arrival of a fragment does on the split side. *)
Lemma input_fragment id m ps st :
  needsCount nd = true ->
  m_parts m = Some ps -> p_id ps = Some id -> has (p_index ps) = true ->
  let group := joined id m ps st in
  exists st1,
    addMessageToGroup id m ps st = (group, st1) /\
    input nd st m =
    if strict_eq (g_count group) (VInt (Z.of_nat (length (g_msgs group)))) then
      let st2 := foldl (fun st m => processRules nd (set_count (g_count group) m) st)
                   st1 (g_msgs group) in
      with_pendingIn (delete id (pendingIn st2))
        (with_pendingCount (pendingCount st2 - Z.of_nat (length (g_msgs group))) st2)
    else st1.
Proof.
  intros Hn Hps Hid Hix. simpl.
  destruct (addMessageToGroup_spec id m ps st) as (st1 & Heq & _).
  exists st1. split; [exact Heq|].
  unfold input, processMessage, hasParts, addMessageToPending.
  rewrite Hn, Hps, Hid, Hix. simpl.
  destruct (p_index ps); [|discriminate]. rewrite Heq.
  destruct (strict_eq _ _); reflexivity.
Qed.

(** Claim C5. A fragment [m] of the group [id] arrives at a node that
    waits for complete sequences. When the count known for the group,
    declared by [m] or by a fragment before it, equals the number of
    fragments gathered with [m], the rule engine receives exactly these
    fragments, in the order of their arrival, each with [parts.count]
    set to that count, and the group is removed from [pendingIn].
    Otherwise no message enters the rule engine, and the group is kept
    with [m] as its last fragment, unless the buffers overflow. *)
Theorem split_side_release id m ps st :
  needsCount nd = true ->
  m_parts m = Some ps -> p_id ps = Some id -> has (p_index ps) = true ->
  let group := joined id m ps st in
  let st' := input nd st m in
  if strict_eq (g_count group) (VInt (Z.of_nat (length (g_msgs group))))
  then
    released (trace st')
    = released (trace st) ++ map (set_count (g_count group)) (g_msgs group) /\
    pendingIn st' !! id = None
  else
    released (trace st') = released (trace st) /\
    pendingIn st' =
    if (0 <? getMaxKeptCount) && (getMaxKeptCount <? pendingCount st + 1)
    then ∅ else <[id:=group]> (pendingIn st).
Proof.
  intros Hn Hps Hid Hix. simpl.
  destruct (input_fragment id m ps st Hn Hps Hid Hix) as (st1 & Heq & ->).
  destruct (addMessageToGroup_spec id m ps st) as (st1' & Heq' & Hq & Hcases).
  rewrite Heq in Heq'. injection Heq' as <-.
  destruct (strict_eq _ _).
  - simpl. rewrite release_released, (quiet_released _ _ Hq).
    split; [reflexivity|]. apply lookup_delete_eq.
  - split; [apply quiet_released; exact Hq|].
    destruct Hcases as [(-> & -> & _)|(-> & -> & _)]; reflexivity.
Qed.





End Buffer.

(** ** More on the rule engine, the buffers and the constructor *)

Section More.
Context {RT : runtime} {RED : host}.
Variable nd : node.

(** In exhaustive mode a pass that runs to its end answers every rule:
    the array has a slot for each rule, and a slot holds the message or
    the absence marker. *)
Theorem exhaustive_array_covers_rules prev prop m f rs rs' f' onward :
  firstMatch nd = false ->
  applyRules nd prev prop m f rs = (rs', Completed f' onward) ->
  length onward = length rs /\
  forall i slot, onward !! i = Some slot -> slot = None \/ slot = Some m.
Proof.
  intros Hfm H. split.
  - apply (applyRules_slots nd prev prop m f rs rs' f' onward H).
    unfold broke. rewrite Hfm. reflexivity.
  - revert f rs' f' onward H. induction rs as [|r rs IH]; intros f rs' f' onward H i slot Hi;
      simpl in H.
    + injection H as _ _ <-. destruct i; discriminate Hi.
    + destruct (applyRule prev prop m f r) as [r1 [ |f1| |e]]; try discriminate.
      * rewrite Hfm in H.
        destruct (applyRules nd prev prop m false rs) as [rest' [f2 ow| |e]] eqn:Hrest;
          try discriminate.
        injection H as _ _ <-. destruct i as [|i]; simpl in Hi.
        -- injection Hi as <-. right. reflexivity.
        -- eapply IH; eauto.
      * destruct (applyRules nd prev prop m f1 rs) as [rest' [f2 ow| |e]] eqn:Hrest;
          try discriminate.
        injection H as _ _ <-. destruct i as [|i]; simpl in Hi.
        -- injection Hi as <-. left. reflexivity.
        -- eapply IH; eauto.
Qed.

(** When the arrival of a fragment makes the buffered count exceed the
    bound and the fragment does not complete its group, everything that
    was buffered is discarded, the overflow is reported once, and the
    fragment is neither evaluated nor sent. *)
Theorem overflow_drops_incomplete_group id m ps st :
  needsCount nd = true ->
  m_parts m = Some ps -> p_id ps = Some id -> has (p_index ps) = true ->
  (0 <? getMaxKeptCount) && (getMaxKeptCount <? pendingCount st + 1) = true ->
  strict_eq (g_count (joined id m ps st))
            (VInt (Z.of_nat (length (g_msgs (joined id m ps st))))) = false ->
  let st' := input nd st m in
  trace st' = trace st ++ [EvError too_many (Some m)] /\
  pendingIn st' = ∅ /\ pendingOut st' = ∅ /\ received st' = ∅ /\
  pendingCount st' = 0 /\ previousValue st' = previousValue st.
Proof.
  intros Hn Hps Hid Hix Hov Hc. simpl.
  destruct (input_fragment nd id m ps st Hn Hps Hid Hix) as (st1 & Heq & ->).
  destruct (addMessageToGroup_spec id m ps st) as (st1' & Heq' & Hq & Hcases).
  rewrite Heq in Heq'. injection Heq' as <-. rewrite Hc.
  destruct Hcases as [(_ & H1 & H2 & H3 & H4 & H5)|(Hno & _)]; [|congruence].
  repeat split; try assumption. apply Hq.
Qed.

End More.



(** ** The regrouping of a sequence *)

Section Regroup.
Context {RT : runtime} {RED : host}.

(** The loop over the ports fills each port from its slot. *)
Lemma fill_ports_spec id index count onward n j0 :
  cloned onward ->
  fill_ports onward j0 (map id (seq j0 n)) (map count (seq j0 n)) (map index (seq j0 n))
  = inr (map (regrouped id index count onward) (seq j0 n),
         map (fun j => index j + if routes j onward then 1 else 0) (seq j0 n)).
Proof.
  intros Hc. revert j0. induction n as [|n IH]; intros j0; simpl; [reflexivity|].
  rewrite IH. unfold fill_port, regrouped, routes.
  destruct (onward !! j0) as [[m|]|] eqn:Hj; simpl.
  - destruct (m_parts (cloneMessage m)) eqn:Hp.
    + reflexivity.
    + exfalso. eapply Hc; [|exact Hp]. eapply list_elem_of_lookup_2. exact Hj.
  - rewrite Z.add_0_r. reflexivity.
  - rewrite Z.add_0_r. reflexivity.
Qed.

Lemma routed_snoc j done onward :
  routed j (done ++ [onward]) = routed j done + if routes j onward then 1 else 0.
Proof.
  unfold routed. rewrite List.filter_app, length_app. simpl.
  destruct (routes j onward); simpl; lia.
Qed.

Lemma send_rows_spec id count pc done rest st :
  (forall onward, onward ∈ rest -> cloned onward) ->
  exists st',
    send_rows (map id (seq 0 pc)) (map count (seq 0 pc))
      (map (fun j => routed j done) (seq 0 pc)) rest st = (st', None) /\
    fresh st' = fresh st /\
    sent (trace st') =
    sent (trace st) ++
    imap (fun i onward =>
            map (regrouped id (fun j => routed j (done ++ take i rest)) count onward)
                (seq 0 pc)) rest.
Proof.
  revert done st. induction rest as [|onward rest IH]; intros done st Hc; simpl.
  - exists st. rewrite app_nil_r. auto.
  - rewrite (fill_ports_spec id (fun j => routed j done) count onward pc 0)
      by (apply Hc; left).
    destruct (IH (done ++ [onward]) (emit (EvSend
                (map (regrouped id (fun j => routed j done) count onward) (seq 0 pc))) st))
      as (st' & Hrun & Hf & Hs).
    { intros ow Hin. apply Hc. right. exact Hin. }
    exists st'. split; [|split].
    + rewrite <- Hrun. f_equal. apply map_ext. intros j. symmetry. apply routed_snoc.
    + rewrite Hf. reflexivity.
    + rewrite Hs. simpl. rewrite sent_app, <- app_assoc. simpl. f_equal. f_equal.
      * rewrite app_nil_r. reflexivity.
      * apply imap_ext. intros i ow _. simpl. rewrite <- app_assoc. reflexivity.
Qed.


(** Lists indexed by their positions. *)
Lemma imap_seq {A} (f : nat -> Z -> A) (c : nat -> Z) n j0 :
  imap (fun i => f (j0 + i)%nat) (map c (seq j0 n)) = map (fun j => f j (c j)) (seq j0 n).
Proof.
  revert j0. induction n as [|n IH]; intros j0; simpl; [reflexivity|].
  rewrite Nat.add_0_r. f_equal. rewrite <- IH. apply imap_ext.
  intros i x _. simpl. f_equal. lia.
Qed.

Lemma replicate_seq {A} (x : A) n j0 : replicate n x = map (fun _ => x) (seq j0 n).
Proof.
  revert j0. induction n as [|n IH]; intros j0; simpl; [reflexivity|].
  f_equal. apply IH.
Qed.

(** The counting loop of [sendGroup] on arrays that all have a slot for
    every port. *)
Lemma count_rows_spec c pc ows :
  (forall onward, onward ∈ ows -> length onward = pc) ->
  foldl count_row (map c (seq 0 pc)) ows = map (fun j => c j + routed j ows) (seq 0 pc).
Proof.
  revert c. induction ows as [|onward ows IH]; intros c Hlen; simpl.
  - apply map_ext. intros j. unfold routed. simpl. lia.
  - assert (Hrow : count_row (map c (seq 0 pc)) onward
                   = map (fun j => c j + if routes j onward then 1 else 0) (seq 0 pc)).
    { unfold count_row.
      rewrite (imap_seq (fun j x => x + match onward !! j with
                                       | Some None => 0
                                       | _ => 1
                                       end) c pc 0).
      apply map_ext_in. intros j Hj. apply in_seq in Hj. f_equal.
      unfold routes. destruct (onward !! j) as [[m|]|] eqn:Hl; try reflexivity.
      apply lookup_ge_None in Hl. rewrite (Hlen onward) in Hl by left. lia. }
    rewrite Hrow, IH by (intros ow Hin; apply Hlen; right; exact Hin).
    apply map_ext. intros j. unfold routed. simpl.
    destruct (routes j onward); simpl; lia.
Qed.

(** On decision arrays that all have a slot for every port, as the
    exhaustive mode builds them, [sendGroup] sends one array per
    fragment, in the order of the fragments. In it port [j] gets the
    message routed to it, with the identity generated for the port, as
    index the number of earlier fragments routed to the port, and as
    count the number of all fragments routed to it. *)
Theorem sendGroup_regroups ows pc st :
  (forall onward, onward ∈ ows -> length onward = pc /\ cloned onward) ->
  exists st',
    sendGroup ows pc st = (st', None) /\
    fresh st' = (fresh st + pc)%nat /\
    sent (trace st') =
    sent (trace st) ++
    imap (fun i onward =>
            map (regrouped (fun j => generateId (fresh st + j)%nat)
                           (fun j => routed j (take i ows))
                           (fun j => routed j ows) onward)
                (seq 0 pc)) ows.
Proof.
  intros H. unfold sendGroup. cbv zeta.
  rewrite !(replicate_seq 0 pc 0).
  rewrite (count_rows_spec (fun _ => 0) pc ows) by (intros ow Hin; apply H; exact Hin).
  destruct (send_rows_spec (fun j => generateId (fresh st + j)%nat)
              (fun j => 0 + routed j ows) pc [] ows
              (with_fresh (fresh st + pc) st)) as (st' & Hrun & Hf & Hs).
  { intros ow Hin. apply H. exact Hin. }
  exists st'. split; [|split].
  - rewrite <- Hrun. reflexivity.
  - rewrite Hf. reflexivity.
  - rewrite Hs. reflexivity.
Qed.

End Regroup.


(** ** Refused configurations *)

Section Setup.
Context {RT : runtime} {RED : host}.

(** A rule whose expression for operand 1 cannot be prepared is
    refused. *)
Lemma normalise_v_refuses r :
  tag_is (r_vt r) "jsonata" = true -> prepare (r_v r) = None ->
  (normalise_v r).2 = true.
Proof.
  intros Htag Hp. unfold normalise_v.
  destruct (r_vt r) as [s|]; [|discriminate]. simpl in Htag.
  apply String.eqb_eq in Htag. subst s. simpl. rewrite Hp. reflexivity.
Qed.

(** One refused rule makes the list of rules invalid, and is reported. *)
Lemma normalise_refuses needs rs r :
  r ∈ rs -> (normalise_v r).2 = true ->
  (normalise needs rs).2 = false /\ (normalise needs rs).1.2 <> [].
Proof.
  intros Hin Hr. revert needs. induction rs as [|r0 rs IH]; intros needs.
  - apply elem_of_nil in Hin. destruct Hin.
  - simpl. set (b := needs || _).
    destruct (normalise_v r0) as [r1 bad1] eqn:H1.
    destruct (normalise_v2 r1) as [r2 bad2].
    destruct (normalise b rs) as [[[rs' needs'] evs] valid] eqn:Hn.
    simpl. apply elem_of_cons in Hin as [->|Hin].
    + rewrite H1 in Hr. simpl in Hr. subst bad1. simpl. split; [reflexivity|discriminate].
    + destruct (IH Hin b) as [Hv He]. rewrite Hn in Hv, He.
      simpl in Hv, He. subst valid. split.
      * rewrite !andb_false_r. reflexivity.
      * intros H. apply app_eq_nil in H as [_ H]. apply app_eq_nil in H as [_ H].
        contradiction.
Qed.

(** A node whose property expression or one of whose rule expressions
    cannot be prepared is not built: the error is reported and no
    handler will run. *)
Theorem refused_expression_disables_node n :
  (n_propertyType n = Some "jsonata" /\ prepareJSONataExpression (n_property n) = None) \/
  (exists r, r ∈ n_rules n /\ tag_is (r_vt r) "jsonata" = true /\ prepare (r_v r) = None) ->
  (SwitchNode n).1 = None /\ (SwitchNode n).2 <> [].
Proof.
  intros [[Ht Hp]|(r & Hin & Htag & Hp)]; unfold SwitchNode.
  - rewrite Ht. simpl. rewrite Hp. simpl. split; [reflexivity|discriminate].
  - destruct (if String.eqb _ "jsonata" then _ else _) as [p|];
      [|split; [reflexivity|discriminate]].
    destruct (normalise_refuses (n_repair n) (n_rules n) r Hin (normalise_v_refuses r Htag Hp))
      as [Hv He].
    destruct (normalise (n_repair n) (n_rules n)) as [[[rs needs] evs] valid].
    simpl in Hv, He. subst valid. split; [reflexivity|exact He].
Qed.

End Setup.


(** ** More on the operators *)

Section Positional.
Context {RT : runtime}.

Lemma js_lt_int (x y : Z) : js_lt (VInt x) (VInt y) = Some (x <? y).
Proof. reflexivity. Qed.

Lemma lte_int (x y : Z) : lte_ (VInt x) (VInt y) = (x <=? y).
Proof.
  unfold lte_. rewrite js_lt_int. simpl.
  destruct (Z.ltb_spec y x), (Z.leb_spec x y); try reflexivity; lia.
Qed.

Lemma lt_int (x y : Z) : lt_ (VInt x) (VInt y) = (x <? y).
Proof. unfold lt_. rewrite js_lt_int. simpl. destruct (x <? y); reflexivity. Qed.


(** A fragment whose [parts] has no index is matched by none of head,
    tail and index, and one that has no count is not matched by tail,
    whatever the operands: the comparison with undefined has no
    answer, and nothing is thrown. *)
Theorem positional_operators_without_index (a b c d : value)
    (id : option string) (ix cnt : option value) :
  let no_index := Some {| p_id := id; p_index := None; p_count := cnt |} in
  let no_count := Some {| p_id := id; p_index := ix; p_count := None |} in
  operators t_head a b c d no_index = inr false /\
  operators t_tail a b c d no_index = inr false /\
  operators t_index a b c d no_index = inr false /\
  operators t_tail a b c d no_count = inr false.
Proof.
  simpl. unfold lt_, lte_, js_lt. simpl. repeat split; try reflexivity.
  destruct (get ix) as [| |x|x|x|x]; simpl; repeat case_match; reflexivity.
Qed.

(** For a type name other than array, buffer, json and null, the type
    test holds exactly when typeof gives that name and the value is
    neither an array, nor a buffer, nor null: the name object leaves
    arrays, buffers and null out. *)
Theorem istype_by_name (a : value) (s : string) :
  s <> "array" -> s <> "buffer" -> s <> "json" -> s <> "null" ->
  istype a (VStr s) = true <->
  typeof a = s /\ isArray a = false /\ isBuffer a = false /\ a <> VNull.
Proof.
  intros H1 H2 H3 H4. unfold istype. simpl.
  apply String.eqb_neq in H1, H2, H3, H4. rewrite H1, H2, H3, H4.
  rewrite !andb_true_iff, !negb_true_iff. rewrite String.eqb_eq.
  assert (Hn : strict_eq a VNull = false <-> a <> VNull).
  { destruct a; simpl; split; congruence. }
  rewrite Hn. tauto.
Qed.

Lemma gt_int (x y : Z) : gt_ (VInt x) (VInt y) = (y <? x).
Proof. unfold gt_. rewrite js_lt_int. simpl. destruct (y <? x); reflexivity. Qed.

Lemma gte_int (x y : Z) : gte_ (VInt x) (VInt y) = (y <=? x).
Proof.
  unfold gte_. rewrite js_lt_int. simpl.
  destruct (Z.ltb_spec x y), (Z.leb_spec y x); try reflexivity; lia.
Qed.

(** On numbers the comparison operators are the order of the integers,
    and btwn takes the values from its first operand to its second,
    both included. *)
Theorem comparisons_on_numbers (x y z : Z) (d : value) (ps : option parts) :
  operators t_eq (VInt x) (VInt y) (VInt z) d ps = inr (x =? y) /\
  operators t_neq (VInt x) (VInt y) (VInt z) d ps = inr (negb (x =? y)) /\
  operators t_lt (VInt x) (VInt y) (VInt z) d ps = inr (x <? y) /\
  operators t_lte (VInt x) (VInt y) (VInt z) d ps = inr (x <=? y) /\
  operators t_gt (VInt x) (VInt y) (VInt z) d ps = inr (y <? x) /\
  operators t_gte (VInt x) (VInt y) (VInt z) d ps = inr (y <=? x) /\
  operators t_btwn (VInt x) (VInt y) (VInt z) d ps = inr ((y <=? x) && (x <=? z)).
Proof.
  simpl. rewrite lt_int, gt_int, !lte_int, !gte_int. repeat split.
Qed.

(** A value under test that is undefined or not a number, as the
    property a message lacks, is matched by none of lt, lte, gt, gte
    and btwn, whatever the operands; it is equal only to undefined and
    null. *)
Theorem comparisons_reject_undefined (a b c d : value) (ps : option parts) :
  a = VUndefined \/ a = VNum NaN ->
  operators t_lt a b c d ps = inr false /\
  operators t_lte a b c d ps = inr false /\
  operators t_gt a b c d ps = inr false /\
  operators t_gte a b c d ps = inr false /\
  operators t_btwn a b c d ps = inr false /\
  (operators t_eq a b c d ps = inr true ->
   a = VUndefined /\ (b = VUndefined \/ b = VNull)).
Proof.
  assert (H1 : forall a y, a = VUndefined \/ a = VNum NaN -> js_lt a y = None).
  { intros a0 y [-> | ->]; unfold js_lt; simpl;
      destruct (ToPrimitive y); simpl; repeat case_match; reflexivity. }
  assert (H2 : forall a y, a = VUndefined \/ a = VNum NaN -> js_lt y a = None).
  { intros a0 y [-> | ->]; unfold js_lt; simpl;
      destruct (ToPrimitive y); simpl; repeat case_match; reflexivity. }
  intros Ha. simpl. unfold lt_, lte_, gt_, gte_.
  rewrite !(H1 a) by exact Ha. rewrite !(H2 a) by exact Ha. simpl.
  do 5 (split; [reflexivity|]). intros H.
  assert (Hnan : forall n, num_eq NaN n = false) by reflexivity.
  destruct Ha as [-> | ->].
  - destruct b; simpl in H; try discriminate; auto.
  - exfalso. destruct b; simpl in H; try discriminate.
Qed.




End Positional.

(** ** The else rule as the last resort *)

(** While no rule matches, the flag stays as an else rule or the entry
    left it. *)
Lemma flag_of_replicate rs n : flag_of true rs (replicate n None) = true.
Proof.
  revert n. induction rs as [|r rs IH]; intros [|n]; simpl; try reflexivity.
  destruct (is_else (r_t r)); apply IH.
Qed.

Section LastResort.
Context {RT : runtime} {RED : host}.
Variable nd : node.
Variables prev prop : value.
Variable m : msg.

(** A slot holds the message of the pass or the absence marker. *)
Lemma applyRules_slot_values f rs rs' f' onward i slot :
  applyRules nd prev prop m f rs = (rs', Completed f' onward) ->
  onward !! i = Some slot -> slot = None \/ slot = Some m.
Proof.
  revert f rs' f' onward i. induction rs as [|r rs IH]; intros f rs' f' onward i H Hi;
    simpl in H.
  - injection H as _ _ <-. destruct i; discriminate Hi.
  - destruct (applyRule prev prop m f r) as [r1 [ |f1| |e]]; try discriminate.
    + destruct (firstMatch nd).
      * injection H as _ _ <-. destruct i as [|[|i]]; try discriminate Hi.
        injection Hi as <-. right. reflexivity.
      * destruct (applyRules nd prev prop m false rs) as [rest' [f2 ow| |e]] eqn:Hrest;
          try discriminate.
        injection H as _ _ <-. destruct i as [|i]; simpl in Hi.
        -- injection Hi as <-. right. reflexivity.
        -- eapply IH; eauto.
    + destruct (applyRules nd prev prop m f1 rs) as [rest' [f2 ow| |e]] eqn:Hrest;
        try discriminate.
      injection H as _ _ <-. destruct i as [|i]; simpl in Hi.
      * injection Hi as <-. left. reflexivity.
      * eapply IH; eauto.
Qed.

(** The slot of an else rule that the pass reaches is read off the
    slots before it. *)
Lemma else_slot f pre r post rs' f' onward :
  is_else (r_t r) = true ->
  applyRules nd prev prop m f (pre ++ r :: post) = (rs', Completed f' onward) ->
  (length pre < length onward)%nat ->
  onward !! length pre
  = Some (if flag_of f pre (take (length pre) onward) then Some m else None).
Proof.
  intros He H Hlen.
  destruct (applyRules_reach nd prev prop m f pre (r :: post) rs' f' onward H Hlen)
    as (pre' & post' & ow1 & ow2 & Hpre & Hb & Hl1 & Hpost & ->).
  rewrite <- Hl1, take_app_length, lookup_app_r by lia. rewrite Nat.sub_diag.
  simpl in Hpost.
  destruct (applyRule prev prop m (flag_of f pre ow1) r) as [r1 v] eqn:Hr.
  destruct (applyRule_else prev prop m _ _ _ _ He Hr) as [->|[[Hf ->]|[Hf ->]]];
    [discriminate| |]; rewrite Hf.
  - destruct (firstMatch nd); [injection Hpost as _ _ <-; reflexivity|].
    destruct (applyRules nd prev prop m false post) as [? [? ow| |?]];
      try discriminate. injection Hpost as _ _ <-. reflexivity.
  - destruct (applyRules nd prev prop m true post) as [? [? ow| |?]];
      try discriminate. injection Hpost as _ _ <-. reflexivity.
Qed.

(** In exhaustive mode, with an else rule as the last rule and no
    other else rule, a pass that runs to its end drops no message: the
    message is in the array, and the port of the else rule gets it
    exactly when no other port does. *)
Theorem trailing_else_catches_the_rest pre r rs' f onward :
  firstMatch nd = false ->
  is_else (r_t r) = true ->
  existsb (fun r => is_else (r_t r)) pre = false ->
  applyRules nd prev prop m true (pre ++ [r]) = (rs', Completed f onward) ->
  length onward = S (length pre) /\
  Some m ∈ onward /\
  (onward !! length pre = Some (Some m) <-> Some m ∉ take (length pre) onward).
Proof.
  intros Hfm He Hpre H.
  assert (Hlen : length onward = S (length pre)).
  { destruct (applyRules_slots nd prev prop m _ _ _ _ _ H) as [_ Hl].
    rewrite Hl by (unfold broke; rewrite Hfm; reflexivity).
    rewrite length_app. simpl. lia. }
  pose proof (else_slot true pre r [] rs' f onward He H ltac:(lia)) as Hslot.
  assert (Hl1 : length (take (length pre) onward) = length pre)
    by (rewrite length_take; lia).
  pose proof (flag_of_window true pre _ Hl1) as Hw.
  rewrite (since_else_none _ Hpre) in Hw.
  assert (Hiff : flag_of true pre (take (length pre) onward) = true <->
                 Some m ∉ take (length pre) onward).
  { rewrite Hw. split.
    - intros [_ Hnone] Hin. apply list_elem_of_lookup_1 in Hin as [i Hi].
      assert (i < length pre)%nat
        by (rewrite <- Hl1; eapply lookup_lt_Some; exact Hi).
      rewrite Hnone in Hi by lia. discriminate.
    - intros Hnot. split; [reflexivity|]. intros i Hi.
      destruct (take (length pre) onward !! i) as [slot|] eqn:Hs.
      + assert (Hs' : onward !! i = Some slot).
        { rewrite lookup_take_lt in Hs by lia. exact Hs. }
        destruct (applyRules_slot_values _ _ _ _ _ _ _ H Hs') as [->| ->];
          [reflexivity|].
        exfalso. apply Hnot. eapply list_elem_of_lookup_2. exact Hs.
      + apply lookup_ge_None in Hs. lia. }
  split; [exact Hlen|]. split.
  - destruct (flag_of true pre (take (length pre) onward)) eqn:Hf.
    + eapply list_elem_of_lookup_2. exact Hslot.
    + destruct (existsb has (take (length pre) onward)) eqn:Hex.
      * apply existsb_exists in Hex as (slot & Hin & Hhas).
        apply list_elem_of_In, list_elem_of_lookup_1 in Hin as [i Hi].
        rewrite lookup_take_Some in Hi. destruct Hi as [Hi _].
        destruct (applyRules_slot_values _ _ _ _ _ _ _ H Hi) as [->| ->];
          [discriminate|].
        eapply list_elem_of_lookup_2. exact Hi.
      * assert (Hnot : Some m ∉ take (length pre) onward).
        { intros Hin. apply list_elem_of_In in Hin.
          assert (existsb has (take (length pre) onward) = true)
            by (apply existsb_exists; exists (Some m); auto).
          congruence. }
        apply Hiff in Hnot. discriminate.
  - rewrite <- Hiff, Hslot.
    destruct (flag_of true pre (take (length pre) onward)); split; congruence.
Qed.

(** In first-match mode, when the rules hold an else rule, a pass that
    runs to its end sends the message to exactly one port, the port of
    the first else rule or one before it: what no rule before the else
    rule takes, the else rule takes. *)
Theorem first_match_else_routes_once pre r post rs' f onward :
  firstMatch nd = true ->
  is_else (r_t r) = true ->
  applyRules nd prev prop m true (pre ++ r :: post) = (rs', Completed f onward) ->
  exists k, (k <= length pre)%nat /\ onward = replicate k None ++ [Some m].
Proof.
  intros Hfm He H.
  assert (Hcut : forall k, (length pre <= k)%nat ->
            take (length pre) (replicate k (@None msg) ++ [Some m])
            = replicate (length pre) None).
  { intros k Hk. rewrite take_app_le by (rewrite length_replicate; lia).
    rewrite take_replicate. f_equal. lia. }
  destruct (applyRules_firstMatch nd prev prop m _ _ _ _ _ Hfm H) as [Hall|(k & Hk & Hone)].
  - exfalso.
    assert (Hlen : (length pre < length onward)%nat).
    { rewrite Hall, length_replicate, length_app. simpl. lia. }
    pose proof (else_slot true pre r post rs' f onward He H Hlen) as Hslot.
    rewrite Hall in Hslot. rewrite take_replicate, flag_of_replicate in Hslot.
    rewrite lookup_replicate_2 in Hslot by (rewrite length_app; simpl; lia).
    discriminate.
  - exists k. split; [|exact Hone].
    destruct (le_lt_dec k (length pre)) as [Hle|Hgt]; [exact Hle|exfalso].
    assert (Hlen : (length pre < length onward)%nat).
    { rewrite Hone, length_app, length_replicate. simpl. lia. }
    pose proof (else_slot true pre r post rs' f onward He H Hlen) as Hslot.
    rewrite Hone, Hcut, flag_of_replicate in Hslot by lia.
    rewrite lookup_app_l in Hslot by (rewrite length_replicate; lia).
    rewrite lookup_replicate_2 in Hslot by lia. discriminate.
Qed.

End LastResort.

(** ** What a message does to the buffers *)

Lemma overflows_app tr1 tr2 : overflows (tr1 ++ tr2) = overflows tr1 ++ overflows tr2.
Proof. apply omap_app. Qed.

Lemma overflows_sends rows : overflows (map EvSend rows) = [].
Proof. induction rows; simpl; auto. Qed.

Section Frame.
Context {RT : runtime} {RED : host}.
Variable nd : node.

(** Sending a group leaves the buffers as they are and emits only
    arrays. *)
Lemma send_rows_frame ids counts indexes ows st :
  let st' := (send_rows ids counts indexes ows st).1 in
  pendingIn st' = pendingIn st /\ pendingOut st' = pendingOut st /\
  received st' = received st /\ pendingCount st' = pendingCount st /\
  pendingId st' = pendingId st /\
  exists rows, trace st' = trace st ++ map EvSend rows.
Proof.
  revert indexes st. induction ows as [|onward ows IH]; intros indexes st; simpl.
  - repeat split. exists []. symmetry. apply app_nil_r.
  - destruct (fill_ports onward 0 ids counts indexes) as [e|[ports indexes']]; simpl.
    + repeat split. exists []. symmetry. apply app_nil_r.
    + destruct (IH indexes' (emit (EvSend ports) st)) as (H1 & H2 & H3 & H4 & H5 & rows & H6).
      simpl in *. repeat split; try assumption.
      exists (ports :: rows). rewrite H6, <- app_assoc. reflexivity.
Qed.

Lemma sendGroup_frame ows port_count st :
  let st' := (sendGroup ows port_count st).1 in
  pendingIn st' = pendingIn st /\ pendingOut st' = pendingOut st /\
  received st' = received st /\ pendingCount st' = pendingCount st /\
  pendingId st' = pendingId st /\
  exists rows, trace st' = trace st ++ map EvSend rows.
Proof.
  unfold sendGroup.
  match goal with |- context [send_rows ?a ?b ?c ?d ?s] =>
    apply (send_rows_frame a b c d s) end.
Qed.

(** The join side leaves [pendingIn] as it is, unless the buffers
    overflow: then all of them are emptied. Without a positive bound
    there is no overflow. *)
Lemma sendGroupMessages_frame onward m st :
  let st' := (sendGroupMessages onward m st).1 in
  exists evs, trace st' = trace st ++ evs /\
    (pendingIn st' = pendingIn st /\ pendingId st' = pendingId st /\ overflows evs = [] \/
     0 < getMaxKeptCount /\ pendingIn st' = ∅ /\ pendingOut st' = ∅ /\
     received st' = ∅ /\ pendingCount st' = 0).
Proof.
  unfold sendGroupMessages. destruct (m_parts m) as [ps|];
    [|exists []; simpl; rewrite app_nil_r; auto].
  set (gid := default "undefined" (p_id ps)).
  set (n := default 0 (received st !! gid) + 1).
  match goal with |- context [sendGroup ?ows ?pc ?s] =>
    pose proof (sendGroup_frame ows pc s) as (H1 & H2 & H3 & H4 & H5 & rows & H6);
    destruct (sendGroup ows pc s) as [st1 e] end.
  simpl in H1, H2, H3, H4, H5, H6.
  destruct (strict_eq _ _).
  - destruct e as [e|]; simpl.
    + exists (map EvSend rows). split; [exact H6|]. left.
      split; [exact H1|]. split; [exact H5|]. apply overflows_sends.
    + match goal with |- context [overflow ?s] => destruct (overflow s) eqn:Hov end; simpl.
      * exists (map EvSend rows ++ [EvError too_many (Some m)]).
        rewrite H6, <- app_assoc. split; [reflexivity|]. right.
        unfold overflow in Hov. apply andb_true_iff in Hov as [Hov _].
        apply Z.ltb_lt in Hov. auto.
      * exists (map EvSend rows). split; [exact H6|]. left.
        split; [exact H1|]. split; [exact H5|]. apply overflows_sends.
  - match goal with |- context [overflow ?s] => destruct (overflow s) eqn:Hov end; simpl.
    + exists [EvError too_many (Some m)]. split; [reflexivity|]. right.
      unfold overflow in Hov. apply andb_true_iff in Hov as [Hov _].
      apply Z.ltb_lt in Hov. auto.
    + exists []. rewrite app_nil_r. auto.
Qed.

Lemma processRules_frame m st :
  let st' := processRules nd m st in
  exists evs, trace st' = trace st ++ evs /\
    (pendingIn st' = pendingIn st /\ pendingId st' = pendingId st /\ overflows evs = [] \/
     0 < getMaxKeptCount /\ pendingIn st' = ∅ /\ pendingOut st' = ∅ /\
     received st' = ∅ /\ pendingCount st' = 0).
Proof.
  unfold processRules. destruct (getProperty nd m) as [prop|]; simpl;
    [|eexists; rewrite <- app_assoc; split; [reflexivity|left; auto]].
  destruct (applyRules nd (previousValue st) prop m true (rules st))
    as [rs' [f ow| |e]]; simpl;
    try (eexists; rewrite <- app_assoc; split; [reflexivity|left; auto]).
  destruct (negb (repair nd) || negb (hasParts m)); simpl;
    [eexists; rewrite <- app_assoc; split; [reflexivity|left; auto]|].
  match goal with |- context [sendGroupMessages ?o ?m ?s] =>
    pose proof (sendGroupMessages_frame o m s) as (evs & Ht & Hc);
    destruct (sendGroupMessages o m s) as [st1 e] end.
  simpl in Ht, Hc.
  destruct e as [e|]; simpl.
  - exists ([EvRules m] ++ evs ++ [EvWarn e]). rewrite Ht, <- !app_assoc.
    split; [reflexivity|]. destruct Hc as [(H1 & H2 & H3)|Hc]; [left|right; exact Hc].
    split; [exact H1|]. split; [exact H2|].
    rewrite !overflows_app, H3. reflexivity.
  - exists ([EvRules m] ++ evs). rewrite Ht, <- !app_assoc.
    split; [reflexivity|]. destruct Hc as [(H1 & H2 & H3)|Hc]; [left|right; exact Hc].
    split; [exact H1|]. split; [exact H2|].
    rewrite !overflows_app, H3. reflexivity.
Qed.

(** The release of a group, likewise. *)
Lemma release_frame count msgs st :
  let st' := foldl (fun st m => processRules nd (set_count count m) st) st msgs in
  exists evs, trace st' = trace st ++ evs /\
    (pendingIn st' = pendingIn st /\ pendingId st' = pendingId st /\ overflows evs = [] \/
     0 < getMaxKeptCount /\ pendingIn st' = ∅).
Proof.
  revert st. induction msgs as [|x msgs IH]; intros st; simpl.
  - exists []. rewrite app_nil_r. auto.
  - destruct (IH (processRules nd (set_count count x) st)) as (evs2 & Ht2 & Hc2).
    destruct (processRules_frame (set_count count x) st) as (evs1 & Ht1 & Hc1).
    simpl in *. exists (evs1 ++ evs2). rewrite Ht2, Ht1, <- app_assoc.
    split; [reflexivity|].
    destruct Hc2 as [(H1 & H2 & H3)|[Hpos H1]].
    + destruct Hc1 as [(H4 & H5 & H6)|(Hpos & H4 & _)].
      * left. rewrite H1, H2, H4, H5, overflows_app, H3, H6. auto.
      * right. rewrite H1, H4. auto.
    + right. auto.
Qed.

(** Without repair the evaluation of a message does not touch the
    buffers. *)
Lemma processRules_no_repair m st :
  repair nd = false \/ hasParts m = false ->
  let st' := processRules nd m st in
  pendingIn st' = pendingIn st /\ pendingOut st' = pendingOut st /\
  received st' = received st /\ pendingCount st' = pendingCount st /\
  pendingId st' = pendingId st /\ fresh st' = fresh st.
Proof.
  intros Hrep. unfold processRules.
  destruct (getProperty nd m) as [prop|]; simpl; [|repeat split].
  destruct (applyRules nd (previousValue st) prop m true (rules st))
    as [rs' [f ow| |e]]; simpl; try (repeat split; fail).
  assert (negb (repair nd) || negb (hasParts m) = true) as ->
    by (destruct Hrep as [-> | ->]; [reflexivity|apply orb_true_r]).
  repeat split.
Qed.

Lemma release_no_repair count msgs st :
  repair nd = false ->
  let st' := foldl (fun st m => processRules nd (set_count count m) st) st msgs in
  pendingIn st' = pendingIn st /\ pendingOut st' = pendingOut st /\
  received st' = received st /\ pendingCount st' = pendingCount st /\
  pendingId st' = pendingId st.
Proof.
  intros Hrep. revert st. induction msgs as [|x msgs IH]; intros st; simpl.
  - repeat split.
  - destruct (IH (processRules nd (set_count count x) st)) as (H1 & H2 & H3 & H4 & H5).
    destruct (processRules_no_repair (set_count count x) st (or_introl Hrep))
      as (G1 & G2 & G3 & G4 & G5 & _).
    simpl in *. rewrite H1, H2, H3, H4, H5. auto.
Qed.


(** The first fragment of a sequence at a node whose buffers are empty,
    as they are once the node is closed or reset, opens a group with the
    sequence number 0 and waits there, unless it is a sequence of one;
    it is never taken for an overflow. *)
Theorem fragment_after_reset_opens_group id m ps st :
  needsCount nd = true ->
  m_parts m = Some ps -> p_id ps = Some id -> has (p_index ps) = true ->
  strict_eq (get (p_count ps)) (VInt 1) = false ->
  let st' := input nd (clearPending st) m in
  pendingIn st' = {[ id := {| g_count := get (p_count ps); g_msgs := [m];
                              g_seq_no := 0 |} ]} /\
  pendingCount st' = 1 /\ pendingOut st' = ∅ /\ received st' = ∅ /\
  trace st' = trace st /\ previousValue st' = previousValue st /\
  rules st' = rules st.
Proof.
  intros Hn Hps Hid Hix Hone. simpl.
  destruct (input_fragment nd id m ps (clearPending st) Hn Hps Hid Hix)
    as (st1 & Heq & ->).
  destruct (addMessageToGroup_spec id m ps (clearPending st))
    as (st1' & Heq' & Hq & Hcases).
  rewrite Heq in Heq'. injection Heq' as <-.
  assert (Hj : joined id m ps (clearPending st)
               = {| g_count := get (p_count ps); g_msgs := [m]; g_seq_no := 0 |}).
  { unfold joined. simpl. rewrite lookup_empty. simpl.
    destruct (p_count ps); reflexivity. }
  rewrite Hj in *. cbn [g_count g_msgs length]. change (Z.of_nat 1) with 1.
  rewrite Hone.
  destruct Hcases as [(Hov & _)|(_ & H1 & H2 & H3 & H4 & H5)].
  - exfalso. simpl in Hov. apply andb_true_iff in Hov as [Ha Hb].
    apply Z.ltb_lt in Ha, Hb. lia.
  - simpl in *. rewrite H1, H2, H3, H4, H5. repeat split.
    + destruct Hq as (Hp & _). exact Hp.
    + destruct Hq as (_ & Hr & _). exact Hr.
Qed.

(** What the arrival of a message leaves of the overflow errors and of
    [pendingIn]. *)
Lemma input_frame st m :
  let st' := input nd st m in
  exists evs, trace st' = trace st ++ evs /\
    (0 < getMaxKeptCount \/ overflows evs = []).
Proof.
  simpl. destruct (needsCount nd && hasParts m) eqn:Hb.
  - apply andb_true_iff in Hb as [Hn Hh].
    destruct (hasParts_inv m Hh) as (ps & id & ix & Hps & Hid & Hix).
    assert (Hix' : has (p_index ps) = true) by (rewrite Hix; reflexivity).
    destruct (input_fragment nd id m ps st Hn Hps Hid Hix') as (st1 & Heq & ->).
    destruct (addMessageToGroup_spec id m ps st) as (st1' & Heq' & Hq & Hcases).
    rewrite Heq in Heq'. injection Heq' as <-.
    assert (H1 : exists evs1, trace st1 = trace st ++ evs1 /\
                   (0 < getMaxKeptCount \/ overflows evs1 = [])).
    { destruct Hcases as [(Hov & _ & _ & _ & _ & Ht)|(_ & _ & _ & _ & _ & Ht)].
      - eexists. split; [exact Ht|]. left.
        apply andb_true_iff in Hov as [Hov _]. apply Z.ltb_lt in Hov. exact Hov.
      - exists []. rewrite app_nil_r. auto. }
    destruct H1 as (evs1 & Ht1 & Hc1).
    destruct (strict_eq _ _).
    + destruct (release_frame (g_count (joined id m ps st)) (g_msgs (joined id m ps st)) st1)
        as (evs2 & Ht2 & Hc2).
      simpl in *. exists (evs1 ++ evs2). rewrite Ht2, Ht1, <- app_assoc.
      split; [reflexivity|].
      destruct Hc1 as [Hpos|Hc1]; [left; exact Hpos|].
      destruct Hc2 as [(_ & _ & Hc2)|[Hpos _]]; [right|left; exact Hpos].
      rewrite overflows_app, Hc1, Hc2. reflexivity.
    + exists evs1. auto.
  - unfold input, processMessage.
    replace (needsCount nd && true && hasParts m) with false
      by (rewrite andb_true_r; symmetry; exact Hb).
    destruct (processRules_frame m st) as (evs & Ht & Hc). simpl in *.
    exists evs. split; [exact Ht|].
    destruct Hc as [(_ & _ & Hc)|[Hpos _]]; auto.
Qed.

(** When the setting nodeMessageBufferMaxLength is absent, zero or
    negative the buffers have no bound: whatever messages arrive, no
    overflow is reported. *)
Theorem unbounded_buffer_never_overflows ms st :
  getMaxKeptCount <= 0 ->
  overflows (trace (inputs nd ms st)) = overflows (trace st).
Proof.
  intros Hmax. revert st. induction ms as [|m ms IH]; intros st; [reflexivity|].
  unfold inputs. simpl. fold (inputs nd ms (input nd st m)). rewrite IH.
  destruct (input_frame st m) as (evs & Ht & [Hpos|Hc]); [lia|].
  simpl in Ht. rewrite Ht, overflows_app, Hc. apply app_nil_r.
Qed.

End Frame.

(** ** What the node keeps over a run *)

Lemma same_rule_refl r : same_rule r r.
Proof.
  unfold same_rule. do 5 (split; [reflexivity|]).
  destruct (r_v r); auto.
Qed.

Lemma same_rule_trans r1 r2 r3 : same_rule r1 r2 -> same_rule r2 r3 -> same_rule r1 r3.
Proof.
  unfold same_rule.
  intros (A1 & A2 & A3 & A4 & A5 & A6) (B1 & B2 & B3 & B4 & B5 & B6).
  split; [congruence|]. split; [congruence|]. split; [congruence|].
  split; [congruence|]. split; [congruence|].
  destruct (r_v r1) as [x1|e1], (r_v r2) as [x2|e2], (r_v r3) as [x3|e3];
    try contradiction; [congruence|].
  destruct A6 as (S1 & E1 & K1), B6 as (S2 & E2 & K2).
  split; [congruence|]. split.
  - intros Hk. rewrite E2, E1; [reflexivity|exact Hk|]. rewrite A1. exact Hk.
  - intros k HI HN. rewrite K2, K1 by assumption. reflexivity.
Qed.

Lemma same_rules_refl rs : Forall2 same_rule rs rs.
Proof. induction rs; constructor; auto using same_rule_refl. Qed.

Lemma same_rules_trans rs1 rs2 rs3 :
  Forall2 same_rule rs1 rs2 -> Forall2 same_rule rs2 rs3 -> Forall2 same_rule rs1 rs3.
Proof.
  intros H. revert rs3. induction H as [|r1 r2 rs1 rs2 Hr H IH]; intros rs3 H3.
  - inversion H3. constructor.
  - inversion H3 as [|? r3 ? rs3' Hr3 H3']; subst. constructor.
    + eapply same_rule_trans; eauto.
    + apply IH. exact H3'.
Qed.

(** Sums over the groups of [pendingIn]. *)
Lemma waiting_sum_insert (p : gmap string in_group) id g :
  p !! id = None ->
  map_fold (fun _ g n => n + Z.of_nat (length (g_msgs g))) 0 (<[id:=g]> p)
  = map_fold (fun _ g n => n + Z.of_nat (length (g_msgs g))) 0 p
    + Z.of_nat (length (g_msgs g)).
Proof.
  intros H.
  rewrite (map_fold_insert_L (fun _ g n => n + Z.of_nat (length (g_msgs g))));
    [reflexivity| |exact H].
  intros. lia.
Qed.

Lemma waiting_sum_delete (p : gmap string in_group) id g :
  p !! id = Some g ->
  map_fold (fun _ g n => n + Z.of_nat (length (g_msgs g))) 0 p
  = map_fold (fun _ g n => n + Z.of_nat (length (g_msgs g))) 0 (delete id p)
    + Z.of_nat (length (g_msgs g)).
Proof.
  intros H.
  rewrite (map_fold_delete_L (fun _ g n => n + Z.of_nat (length (g_msgs g))) 0 id g p);
    [reflexivity| |exact H].
  intros. lia.
Qed.

Section Invariants.
Context {RT : runtime} {RED : host}.
Variable nd : node.

(** Resolving operand 1 binds I and N in the expression of a rule of
    the kind jsonata_exp, and changes nothing else of the rule. *)
Lemma getV1_same prev m r : same_rule r (getV1 prev m r).1.
Proof.
  unfold getV1.
  destruct (tag_is (r_vt r) "prev"); [apply same_rule_refl|].
  destruct (tag_is (r_vt r) "jsonata"); [|repeat case_match; apply same_rule_refl].
  destruct (r_v r) as [x|exp] eqn:Hv; [apply same_rule_refl|].
  unfold same_rule. simpl. rewrite Hv. do 5 (split; [reflexivity|]).
  destruct (is_jsonata_exp (r_t r) && hasParts m) eqn:Hb.
  - apply andb_true_iff in Hb as [Hj _].
    destruct (m_parts m) as [ps|]; [|auto]. simpl.
    split; [reflexivity|]. split; [congruence|].
    intros k HI HN. rewrite !lookup_insert_ne by congruence. reflexivity.
  - auto.
Qed.

Lemma applyRule_same prev prop m f r : same_rule r (applyRule prev prop m f r).1.
Proof.
  unfold applyRule. pose proof (getV1_same prev m r) as H.
  destruct (getV1 prev m r) as [r1 v1]; simpl in H.
  repeat case_match; simpl; assumption.
Qed.

Lemma applyRules_same prev prop m f rs :
  Forall2 same_rule rs (applyRules nd prev prop m f rs).1.
Proof.
  revert f. induction rs as [|r rs IH]; intros f; simpl; [constructor|].
  pose proof (applyRule_same prev prop m f r) as Hr.
  destruct (applyRule prev prop m f r) as [r1 [ |f1| |e]]; simpl in *.
  - destruct (firstMatch nd); simpl.
    + constructor; [exact Hr|apply same_rules_refl].
    + specialize (IH false). destruct (applyRules nd prev prop m false rs); simpl in *.
      constructor; assumption.
  - specialize (IH f1). destruct (applyRules nd prev prop m f1 rs); simpl in *.
    constructor; assumption.
  - constructor; [exact Hr|apply same_rules_refl].
  - constructor; [exact Hr|apply same_rules_refl].
Qed.

Lemma processRules_same m st : Forall2 same_rule (rules st) (rules (processRules nd m st)).
Proof.
  unfold processRules. destruct (getProperty nd m) as [prop|]; simpl;
    [|apply same_rules_refl].
  pose proof (applyRules_same (previousValue st) prop m true (rules st)) as H.
  destruct (applyRules nd (previousValue st) prop m true (rules st))
    as [rs' [f ow| |e]]; simpl in *; try exact H.
  destruct (negb (repair nd) || negb (hasParts m)); simpl; [exact H|].
  match goal with |- context [sendGroupMessages ?o ?m ?s] =>
    pose proof (sendGroupMessages_quiet o m s) as (_ & Hr & _);
    destruct (sendGroupMessages o m s) as [st1 e] end.
  simpl in Hr. destruct e; simpl; rewrite Hr; exact H.
Qed.

Lemma release_same count msgs st :
  Forall2 same_rule (rules st)
    (rules (foldl (fun st m => processRules nd (set_count count m) st) st msgs)).
Proof.
  revert st. induction msgs as [|x msgs IH]; intros st; simpl.
  - apply same_rules_refl.
  - eapply same_rules_trans; [apply processRules_same|apply IH].
Qed.

Lemma input_same st m : Forall2 same_rule (rules st) (rules (input nd st m)).
Proof.
  destruct (needsCount nd && hasParts m) eqn:Hb.
  - apply andb_true_iff in Hb as [Hn Hh].
    destruct (hasParts_inv m Hh) as (ps & id & ix & Hps & Hid & Hix).
    assert (Hix' : has (p_index ps) = true) by (rewrite Hix; reflexivity).
    destruct (input_fragment nd id m ps st Hn Hps Hid Hix') as (st1 & Heq & ->).
    destruct (addMessageToGroup_spec id m ps st) as (st1' & Heq' & Hq & _).
    rewrite Heq in Heq'. injection Heq' as <-.
    destruct Hq as (_ & Hr & _).
    destruct (strict_eq _ _); simpl; rewrite <- Hr; [apply release_same|apply same_rules_refl].
  - unfold input, processMessage.
    replace (needsCount nd && true && hasParts m) with false
      by (rewrite andb_true_r; symmetry; exact Hb).
    apply processRules_same.
Qed.

(** Whatever messages arrive, the rules of the node stay as the
    constructor left them: as many, of the same kinds, with the same
    type tags, operands and case flag. The one thing a message changes
    is the binding of the variables I and N in the expression of a rule
    of the kind jsonata_exp, which stays bound for the messages after
    it. *)
Theorem rules_keep_their_setup ms st :
  Forall2 same_rule (rules st) (rules (inputs nd ms st)) /\
  length (rules (inputs nd ms st)) = length (rules st).
Proof.
  assert (H : Forall2 same_rule (rules st) (rules (inputs nd ms st))).
  { revert st. induction ms as [|m ms IH]; intros st; [apply same_rules_refl|].
    unfold inputs. simpl. fold (inputs nd ms (input nd st m)).
    eapply same_rules_trans; [apply input_same|apply IH]. }
  split; [exact H|]. symmetry. eapply Forall2_length. exact H.
Qed.

(** The arrival of a message keeps the groups of [pendingIn]
    waiting. *)
Lemma input_waiting st m : waiting st -> waiting (input nd st m).
Proof.
  intros Hw. destruct (needsCount nd && hasParts m) eqn:Hb.
  - apply andb_true_iff in Hb as [Hn Hh].
    destruct (hasParts_inv m Hh) as (ps & id & ix & Hps & Hid & Hix).
    assert (Hix' : has (p_index ps) = true) by (rewrite Hix; reflexivity).
    destruct (input_fragment nd id m ps st Hn Hps Hid Hix') as (st1 & Heq & ->).
    destruct (addMessageToGroup_spec id m ps st) as (st1' & Heq' & Hq & Hcases).
    rewrite Heq in Heq'. injection Heq' as <-.
    assert (Hst1 : pendingIn st1 = ∅ \/ pendingIn st1 = <[id:=joined id m ps st]> (pendingIn st)).
    { destruct Hcases as [(_ & H & _)|(_ & H & _)]; auto. }
    destruct (strict_eq _ _) eqn:Hc.
    + destruct (release_frame nd (g_count (joined id m ps st))
                  (g_msgs (joined id m ps st)) st1) as (evs & _ & Hrel).
      cbv zeta in Hrel |- *.
      match goal with |- waiting (with_pendingIn (delete id (pendingIn ?s)) _) =>
        set (st2 := s) in * end.
      assert (Hst2 : pendingIn st2 = ∅ \/
                     pendingIn st2 = <[id:=joined id m ps st]> (pendingIn st)).
      { destruct Hrel as [(-> & _)|[_ ->]]; auto. }
      intros id' g Hl. cbn [pendingIn with_pendingIn] in Hl.
      destruct Hst2 as [Hst2 | Hst2]; rewrite Hst2 in Hl.
      * rewrite delete_empty, lookup_empty in Hl. discriminate.
      * apply lookup_delete_Some in Hl as [Hne Hl].
        rewrite lookup_insert_ne in Hl by exact Hne. eapply Hw. exact Hl.
    + intros id' g. destruct Hst1 as [-> | ->].
      * rewrite lookup_empty. discriminate.
      * destruct (decide (id = id')) as [<-|Hne].
        -- rewrite lookup_insert_eq. intros Hg. injection Hg as <-.
           split; [|split].
           ++ unfold joined. simpl. intros H. apply app_eq_nil in H as [_ H]. discriminate.
           ++ exact Hc.
           ++ unfold joined. simpl. apply Forall_app. split.
              ** destruct (pendingIn st !! id) as [old|] eqn:Hold; simpl; [|constructor].
                 apply (Hw id old Hold).
              ** constructor; [|constructor]. exists ps. auto.
        -- rewrite lookup_insert_ne by exact Hne. apply Hw.
  - unfold input, processMessage.
    replace (needsCount nd && true && hasParts m) with false
      by (rewrite andb_true_r; symmetry; exact Hb).
    destruct (processRules_frame nd m st) as (evs & _ & Hc). simpl in Hc.
    intros id' g. destruct Hc as [(-> & _)|(_ & -> & _)].
    + apply Hw.
    + rewrite lookup_empty. discriminate.
Qed.

(** Over any run, a group of [pendingIn] waits: it holds fragments of
    its own sequence, at least one, and their number is not the count
    that the group knows. A group that is complete is released on the
    spot. *)
Theorem pendingIn_holds_incomplete_groups ms st :
  waiting st -> waiting (inputs nd ms st).
Proof.
  revert st. induction ms as [|m ms IH]; intros st Hw; [exact Hw|].
  unfold inputs. simpl. fold (inputs nd ms (input nd st m)).
  apply IH, input_waiting, Hw.
Qed.

(** The arrival of a message at a node that does not repair
    sequences and has no bound on its buffers keeps the counter exact. *)
Lemma input_accounting st m :
  repair nd = false -> getMaxKeptCount <= 0 ->
  pendingCount st = buffered st ->
  pendingCount (input nd st m) = buffered (input nd st m) /\
  pendingOut (input nd st m) = pendingOut st.
Proof.
  intros Hrep Hmax Hinv. destruct (needsCount nd && hasParts m) eqn:Hb.
  - apply andb_true_iff in Hb as [Hn Hh].
    destruct (hasParts_inv m Hh) as (ps & id & ix & Hps & Hid & Hix).
    assert (Hix' : has (p_index ps) = true) by (rewrite Hix; reflexivity).
    destruct (input_fragment nd id m ps st Hn Hps Hid Hix') as (st1 & Heq & ->).
    destruct (addMessageToGroup_spec id m ps st) as (st1' & Heq' & Hq & Hcases).
    rewrite Heq in Heq'. injection Heq' as <-.
    destruct Hcases as [(Hov & _)|(_ & Hin & Hout & _ & Hcnt & _)].
    { apply andb_true_iff in Hov as [Hov _]. apply Z.ltb_lt in Hov. lia. }
    assert (Hsum : map_fold (fun _ g n => n + Z.of_nat (length (g_msgs g))) 0
                     (delete id (pendingIn st))
                   + Z.of_nat (length (g_msgs (joined id m ps st)))
                   = map_fold (fun _ g n => n + Z.of_nat (length (g_msgs g))) 0
                       (pendingIn st) + 1).
    { unfold joined. simpl. rewrite length_app. simpl.
      destruct (pendingIn st !! id) as [old|] eqn:Hold; simpl.
      - rewrite (waiting_sum_delete _ id old Hold). lia.
      - rewrite delete_id by exact Hold. lia. }
    remember (joined id m ps st) as J eqn:HJ. clear HJ.
    destruct (strict_eq _ _).
    + destruct (release_no_repair nd (g_count J) (g_msgs J) st1 Hrep)
        as (G1 & G2 & _ & G4 & _).
      simpl in G1, G2, G4. unfold buffered. simpl.
      rewrite G1, G2, G4, Hin, Hout, Hcnt, delete_insert_eq.
      unfold buffered in Hinv. split; [lia|reflexivity].
    + unfold buffered. rewrite Hin, Hout, Hcnt.
      rewrite <- insert_delete_eq, waiting_sum_insert by apply lookup_delete_eq.
      unfold buffered in Hinv. split; [lia|reflexivity].
  - unfold input, processMessage.
    replace (needsCount nd && true && hasParts m) with false
      by (rewrite andb_true_r; symmetry; exact Hb).
    destruct (processRules_no_repair nd m st (or_introl Hrep)) as (G1 & G2 & _ & G4 & _).
    simpl in G1, G2, G4. unfold buffered. rewrite G1, G2, G4.
    split; [exact Hinv|reflexivity].
Qed.

(** At a node that does not repair sequences and has no bound on its
    buffers, the counter of the buffered messages is exact over any
    run: it stays equal to the number of messages that wait in
    [pendingIn] and of arrays that wait in [pendingOut]. *)
Theorem counter_is_exact_without_repair ms st :
  repair nd = false -> getMaxKeptCount <= 0 ->
  pendingCount st = buffered st ->
  pendingCount (inputs nd ms st) = buffered (inputs nd ms st).
Proof.
  intros Hrep Hmax. revert st. induction ms as [|m ms IH]; intros st Hinv; [exact Hinv|].
  unfold inputs. simpl. fold (inputs nd ms (input nd st m)).
  apply IH. apply (input_accounting st m Hrep Hmax Hinv).
Qed.

End Invariants.

(** ** The node that the constructor builds *)

Section Built.
Context {RT : runtime} {RED : host}.

Lemma tag_is_inj tag a b : tag_is tag a = true -> tag_is tag b = true -> a = b.
Proof.
  destruct tag as [s|]; simpl; [|discriminate].
  intros Ha Hb. apply String.eqb_eq in Ha, Hb. congruence.
Qed.

Lemma normalise_v_spec r :
  let r1 := (normalise_v r).1 in
  r_t r1 = r_t r /\ r_case r1 = r_case r /\ r_v2 r1 = r_v2 r /\ r_v2t r1 = r_v2t r /\
  unset (r_vt r1) = false /\
  ((normalise_v r).2 = false -> tag_is (r_vt r1) "jsonata" = true ->
   exists exp, r_v r1 = OExpr exp).
Proof.
  unfold normalise_v.
  set (vt := if unset (r_vt r) then _ else _).
  assert (Hvt : unset vt = false).
  { subst vt. destruct (unset (r_vt r)) eqn:Hu; [|exact Hu].
    destruct (negb _); reflexivity. }
  clearbody vt.
  destruct (tag_is vt "num") eqn:Hnum.
  - simpl. destruct (negb (isNaN (Number (r_v r)))); simpl;
      (do 5 (split; [reflexivity || assumption|]));
      intros _ Hj; discriminate (tag_is_inj _ _ _ Hnum Hj).
  - destruct (tag_is vt "jsonata") eqn:Hj; simpl.
    + destruct (prepare (r_v r)) as [exp|] eqn:Hp; simpl; rewrite ?Hp; simpl;
        (do 5 (split; [reflexivity || assumption|])).
      * intros _ _. eauto.
      * discriminate.
    + do 5 (split; [reflexivity || assumption|]). intros _ H. congruence.
Qed.

Lemma normalise_v2_spec r :
  let r2 := (normalise_v2 r).1 in
  r_t r2 = r_t r /\ r_case r2 = r_case r /\ r_v r2 = r_v r /\ r_vt r2 = r_vt r /\
  ((normalise_v2 r).2 = false -> tag_is (r_v2t r2) "jsonata" = true ->
   r_v2 r2 <> OVal VUndefined -> exists exp, r_v2 r2 = OExpr exp).
Proof.
  unfold normalise_v2.
  assert (Hother : forall v2,
            let v2t := if unset (r_v2t r)
                       then (if negb (isNaN (Number v2)) then Some "num" else Some "str")
                       else r_v2t r in
            let res := if tag_is v2t "num" then (with_v2 (OVal (VNum (Number v2))) v2t r, false)
                       else if tag_is v2t "jsonata" then
                         match prepare v2 with
                         | Some exp => (with_v2 (OExpr exp) v2t r, false)
                         | None => (with_v2 v2 v2t r, true)
                         end
                       else (with_v2 v2 v2t r, false) in
            r_t res.1 = r_t r /\ r_case res.1 = r_case r /\ r_v res.1 = r_v r /\
            r_vt res.1 = r_vt r /\
            (res.2 = false -> tag_is (r_v2t res.1) "jsonata" = true ->
             r_v2 res.1 <> OVal VUndefined -> exists exp, r_v2 res.1 = OExpr exp)).
  { intros v2 v2t res. subst res. clearbody v2t.
    destruct (tag_is v2t "num") eqn:Hnum; simpl.
    - do 4 (split; [reflexivity|]). intros _ Hj.
      discriminate (tag_is_inj _ _ _ Hnum Hj).
    - destruct (tag_is v2t "jsonata") eqn:Hj; simpl.
      + destruct (prepare v2) as [exp|]; simpl; (do 4 (split; [reflexivity|])).
        * intros _ _ _. eauto.
        * discriminate.
      + do 4 (split; [reflexivity|]). intros _ H. congruence. }
  destruct (r_v2 r) as [[]|exp] eqn:Hv2; try apply Hother.
  simpl. do 4 (split; [reflexivity|]). intros _ _ H. rewrite Hv2 in H. contradiction.
Qed.

(** The loop of the constructor over the rules: it reports one error
    for each expression that is refused and is valid when it reported
    none; it keeps the kinds and the case flags of the rules, gives
    every rule a type tag for operand 1, and leaves prepared
    expressions. *)
Lemma normalise_spec needs rs :
  let rs' := (normalise needs rs).1.1.1 in
  let evs := (normalise needs rs).1.2 in
  let valid := (normalise needs rs).2 in
  (normalise needs rs).1.1.2 = needs || existsb counts_parts rs /\
  (valid = true <-> evs = []) /\
  Forall (fun e => e = EvError invalid_expr None) evs /\
  Forall2 (fun r r' => r_t r' = r_t r /\ r_case r' = r_case r /\
                       unset (r_vt r') = false /\ (valid = true -> prepared r'))
          rs rs'.
Proof.
  revert needs. induction rs as [|r rs IH]; intros needs; simpl.
  - rewrite orb_false_r. repeat split; constructor.
  - fold (counts_parts r).
    pose proof (normalise_v_spec r) as (A1 & A2 & A3 & A4 & A5 & A6).
    destruct (normalise_v r) as [r1 bad1]. simpl in A1, A2, A3, A4, A5, A6.
    pose proof (normalise_v2_spec r1) as (B1 & B2 & B3 & B4 & B5).
    destruct (normalise_v2 r1) as [r2 bad2]. simpl in B1, B2, B3, B4, B5.
    specialize (IH (needs || counts_parts r)).
    destruct (normalise (needs || counts_parts r) rs) as [[[rs' needs'] evs] valid].
    simpl in IH |- *. destruct IH as (I1 & I2 & I3 & I4).
    split; [rewrite I1, orb_assoc; reflexivity|]. split; [|split].
    + destruct bad1, bad2; simpl; try (split; discriminate). exact I2.
    + destruct bad1, bad2; simpl; repeat constructor; exact I3.
    + constructor.
      * split; [congruence|]. split; [congruence|]. split; [congruence|].
        intros Hv. apply andb_true_iff in Hv as [Hv _].
        apply andb_true_iff in Hv as [H1 H2].
        apply negb_true_iff in H1, H2. subst bad1 bad2.
        split.
        -- rewrite B4, B3. apply A6. reflexivity.
        -- apply B5. reflexivity.
      * eapply Forall2_impl; [exact I4|]. simpl.
        intros x y (C1 & C2 & C3 & C4). repeat split; try assumption;
          apply C4; apply andb_true_iff in H as [_ H]; exact H.
Qed.

(** The constructor builds a node exactly when it reports no error,
    and all it ever reports is an expression that it refuses. *)
Theorem constructor_builds_or_reports n :
  ((SwitchNode n).1 = None <-> (SwitchNode n).2 <> []) /\
  Forall (fun e => e = EvError invalid_expr None) (SwitchNode n).2.
Proof.
  unfold SwitchNode.
  destruct (if String.eqb _ "jsonata" then _ else _) as [p|]; simpl.
  - pose proof (normalise_spec (n_repair n) (n_rules n)) as (_ & H2 & H3 & _).
    destruct (normalise (n_repair n) (n_rules n)) as [[[rs needs] evs] valid].
    simpl in H2, H3. destruct valid; simpl.
    + split; [|exact H3]. destruct H2 as [H2 _]. rewrite (H2 eq_refl).
      split; [discriminate|congruence].
    + split; [|exact H3]. split; [|reflexivity]. intros _ He.
      destruct H2 as [_ H2]. discriminate (H2 He).
  - split; [|repeat constructor]. split; [discriminate|reflexivity].
Qed.

(** The node that is built. It waits for the count of a sequence when
    it repairs sequences or has a rule of the kind tail or jsonata_exp.
    It stops at the first match only for a checkall that is equal to
    the string false: a checkall that is absent, or the boolean false,
    selects the exhaustive mode. Its rules are those of the
    configuration, one for one, of the same kinds, each with a type tag
    for operand 1 and with its expressions prepared. *)
Theorem constructor_builds_the_node n nd st0 evs :
  SwitchNode n = (Some (nd, st0), evs) ->
  evs = [] /\
  repair nd = n_repair n /\
  needsCount nd = n_repair n || existsb counts_parts (n_rules n) /\
  firstMatch nd = truthy (n_checkall n) && loose_eq (n_checkall n) (VStr "false") /\
  Forall2 (fun r r' => r_t r' = r_t r /\ r_case r' = r_case r /\
                       unset (r_vt r') = false /\ prepared r')
          (n_rules n) (rules st0).
Proof.
  unfold SwitchNode.
  destruct (if String.eqb _ "jsonata" then _ else _) as [p|]; [|discriminate].
  pose proof (normalise_spec (n_repair n) (n_rules n)) as (H1 & H2 & _ & H4).
  destruct (normalise (n_repair n) (n_rules n)) as [[[rs needs] evs'] valid].
  simpl in H1, H2, H4. destruct valid; [|discriminate].
  intros H. injection H as <- <- <-. simpl.
  split; [apply H2; reflexivity|]. split; [reflexivity|]. split; [exact H1|]. split.
  - unfold firstMatch. simpl. destruct (truthy (n_checkall n)); reflexivity.
  - eapply Forall2_impl; [exact H4|]. simpl. intros x y (C1 & C2 & C3 & C4). auto.
Qed.

End Built.

(** ** The sequences that leave the join side *)

Lemma port_output_app j rows1 rows2 :
  port_output j (rows1 ++ rows2) = port_output j rows1 ++ port_output j rows2.
Proof. apply omap_app. Qed.

Lemma port_output_cons j row rows :
  port_output j (row :: rows)
  = match row !! j with
    | Some (Some m) => m :: port_output j rows
    | _ => port_output j rows
    end.
Proof.
  unfold port_output. simpl. destruct (row !! j) as [[m|]|]; reflexivity.
Qed.

(** The arrays that route to a port are those that hold a message for
    it. *)
Lemma routed_port_output j ows : routed j ows = Z.of_nat (length (port_output j ows)).
Proof.
  unfold routed. f_equal. induction ows as [|ow ows IH]; [reflexivity|].
  rewrite port_output_cons. cbn [List.filter]. unfold routes at 1.
  destruct (ow !! j) as [[m|]|]; cbn [length]; rewrite IH; reflexivity.
Qed.

Section Join.
Context {RT : runtime} {RED : host}.

(** Port by port, the arrays that [sendGroup] sends renumber the
    messages routed to the port. *)
Lemma port_output_regrouped id cnt pc j done rest :
  (j < pc)%nat ->
  port_output j
    (imap (fun i ow => map (regrouped id (fun j => routed j (done ++ take i rest)) cnt ow)
                           (seq 0 pc)) rest)
  = imap (fun k => renumbered (id j) (cnt j) (length (port_output j done) + k))
         (port_output j rest).
Proof.
  intros Hj. revert done. induction rest as [|ow rest IH]; intros done; [reflexivity|].
  cbn [imap]. rewrite !port_output_cons.
  rewrite list_lookup_fmap, lookup_seq_lt by exact Hj. simpl.
  assert (Hrest : imap ((fun i ow0 => map (regrouped id
                      (fun j0 => routed j0 (done ++ take i (ow :: rest))) cnt ow0)
                      (seq 0 pc)) ∘ S) rest
                  = imap (fun i ow0 => map (regrouped id
                      (fun j0 => routed j0 ((done ++ [ow]) ++ take i rest)) cnt ow0)
                      (seq 0 pc)) rest).
  { apply imap_ext. intros i ow0 _. simpl. rewrite <- app_assoc. reflexivity. }
  rewrite Hrest, IH, port_output_app, length_app.
  unfold regrouped at 1. rewrite port_output_cons.
  destruct (ow !! j) as [[m|]|] eqn:Hs; simpl.
  - rewrite app_nil_r, routed_port_output. unfold renumbered at 2.
    rewrite Nat.add_0_r. f_equal. apply imap_ext. intros k x _. simpl.
    f_equal. lia.
  - apply imap_ext. intros k x _. simpl. f_equal. lia.
  - apply imap_ext. intros k x _. simpl. f_equal. lia.
Qed.

(** What [sendGroup] sends for arrays that all have a slot for every
    port. *)
Lemma sendGroup_sends ows pc st :
  (forall onward, onward ∈ ows -> length onward = pc /\ cloned onward) ->
  exists st',
    sendGroup ows pc st = (st', None) /\
    sent (trace st') =
    sent (trace st) ++
    imap (fun i onward =>
            map (regrouped (fun j => generateId (fresh st + j)%nat)
                           (fun j => routed j ([] ++ take i ows))
                           (fun j => routed j ows) onward)
                (seq 0 pc)) ows.
Proof.
  intros H. unfold sendGroup. cbv zeta.
  rewrite !(replicate_seq 0 pc 0).
  rewrite (count_rows_spec (fun _ => 0) pc ows) by (intros ow Hin; apply H; exact Hin).
  destruct (send_rows_spec (fun j => generateId (fresh st + j)%nat)
              (fun j => 0 + routed j ows) pc [] ows
              (with_fresh (fresh st + pc) st)) as (st' & Hrun & Hf & Hs).
  { intros ow Hin. apply H. exact Hin. }
  exists st'. split.
  - rewrite <- Hrun. reflexivity.
  - rewrite Hs. reflexivity.
Qed.

(** On decision arrays that all have a slot for every port, each port
    receives from [sendGroup] a sequence of its own: the copies of the
    messages routed to the port, in the order of the fragments, under
    the identity generated for the port, numbered from 0, with their
    number as the count. *)
Theorem sendGroup_port_sequences ows pc st j :
  (forall onward, onward ∈ ows -> length onward = pc /\ cloned onward) ->
  (j < pc)%nat ->
  exists st' new,
    sendGroup ows pc st = (st', None) /\
    sent (trace st') = sent (trace st) ++ new /\
    length new = length ows /\
    port_output j new
    = imap (renumbered (generateId (fresh st + j)%nat)
                       (Z.of_nat (length (port_output j ows))))
           (port_output j ows).
Proof.
  intros H Hj. destruct (sendGroup_sends ows pc st H) as (st' & Hrun & Hs).
  eexists st', _. split; [exact Hrun|]. split; [exact Hs|]. split.
  - apply length_imap.
  - rewrite (port_output_regrouped _ _ pc j [] ows Hj), routed_port_output.
    reflexivity.
Qed.


(** The arrays that the join side holds come from the arrays it held
    and from the one it was given. *)
Lemma sendGroupMessages_pendingOut onward m st gid g ow :
  pendingOut (sendGroupMessages onward m st).1 !! gid = Some g -> ow ∈ onwards g ->
  ow = onward \/ exists g0, pendingOut st !! gid = Some g0 /\ ow ∈ onwards g0.
Proof.
  unfold sendGroupMessages. destruct (m_parts m) as [ps|]; [|simpl; eauto].
  set (gid0 := default "undefined" (p_id ps)).
  set (n := default 0 (received st !! gid0) + 1).
  cbn [pendingOut with_received].
  set (ows := onwards (default {| onwards := [] |} (pendingOut st !! gid0)) ++ [onward]).
  assert (Hins : forall g1, <[gid0:={| onwards := ows |}]> (pendingOut st) !! gid = Some g1 ->
            ow ∈ onwards g1 ->
            ow = onward \/ exists g0, pendingOut st !! gid = Some g0 /\ ow ∈ onwards g0).
  { intros g1 Hl Hin. destruct (decide (gid0 = gid)) as [<-|Hne].
    - rewrite lookup_insert_eq in Hl. injection Hl as <-. simpl in Hin.
      subst ows. apply elem_of_app in Hin as [Hin|Hin].
      + destruct (pendingOut st !! gid0) as [g0|]; simpl in Hin.
        * right. eauto.
        * apply elem_of_nil in Hin. destruct Hin.
      + apply list_elem_of_singleton in Hin. left. exact Hin.
    - rewrite lookup_insert_ne in Hl by exact Hne. right. eauto. }
  match goal with |- context [sendGroup ows (length onward) ?s] =>
    pose proof (sendGroup_frame ows (length onward) s) as (_ & F2 & _);
    destruct (sendGroup ows (length onward) s) as [st1 e] end.
  cbn [fst pendingOut with_pendingCount with_pendingOut] in F2.
  destruct (strict_eq _ _).
  - destruct e as [e|]; cbn [fst].
    + rewrite F2. apply Hins.
    + match goal with |- context [overflow ?s] => destruct (overflow s) end; cbn.
      * rewrite lookup_empty. discriminate.
      * rewrite F2. intros Hl. apply lookup_delete_Some in Hl as [Hne Hl].
        apply (Hins g Hl).
  - match goal with |- context [overflow ?s] => destruct (overflow s) end; cbn.
    + rewrite lookup_empty. discriminate.
    + apply Hins.
Qed.

Section Regular.
Variable nd : node.
Hypothesis exhaustive_mode : firstMatch nd = false.

Lemma regular_same st st' :
  pendingOut st' = pendingOut st \/ pendingOut st' = ∅ ->
  length (rules st') = length (rules st) ->
  regular st -> regular st'.
Proof.
  intros [Hp|Hp] Hr Hreg gid g ow; rewrite Hp, Hr.
  - apply Hreg.
  - rewrite lookup_empty. discriminate.
Qed.

Lemma processRules_regular m st : regular st -> regular (processRules nd m st).
Proof.
  intros Hreg. unfold processRules.
  destruct (getProperty nd m) as [prop|];
    [|apply (regular_same st); [left; reflexivity|reflexivity|exact Hreg]].
  cbn [previousValue rules emit].
  pose proof (applyRules_length nd (previousValue st) prop m true (rules st)) as Hlen.
  destruct (applyRules nd (previousValue st) prop m true (rules st))
    as [rs' [f ow| |e]] eqn:Hrun; cbn [fst] in Hlen;
    try (apply (regular_same st); [left; reflexivity|exact Hlen|exact Hreg]).
  destruct (negb (repair nd) || negb (hasParts m)) eqn:Hb;
    [apply (regular_same st); [left; reflexivity|exact Hlen|exact Hreg]|].
  apply orb_false_elim in Hb as [_ Hh]. apply negb_false_iff in Hh.
  match goal with |- context [sendGroupMessages ow m ?s] =>
    pose proof (sendGroupMessages_pendingOut ow m s) as Hout;
    pose proof (sendGroupMessages_quiet ow m s) as (_ & Hr & _);
    destruct (sendGroupMessages ow m s) as [st1 e] end.
  cbn [fst rules with_previousValue with_rules emit] in Hout, Hr.
  assert (Hst1 : regular st1).
  { intros gid g ow' Hl Hin. rewrite Hr, Hlen.
    destruct (Hout gid g ow' Hl Hin) as [->|(g0 & Hl0 & Hin0)].
    - split.
      + apply (applyRules_slots nd _ _ _ _ _ _ _ _ Hrun).
        unfold broke. rewrite exhaustive_mode. reflexivity.
      + intros m' Hm'. apply list_elem_of_lookup_1 in Hm' as [i Hi].
        destruct (applyRules_slot_values nd _ _ _ _ _ _ _ _ _ _ Hrun Hi) as [?|Heq];
          [discriminate|]. injection Heq as ->.
        destruct (hasParts_inv m Hh) as (ps & _ & _ & -> & _). discriminate.
    - apply (Hreg gid g0 ow' Hl0 Hin0). }
  destruct e; [|exact Hst1].
  apply (regular_same st1); [left; reflexivity|reflexivity|exact Hst1].
Qed.

Lemma release_regular count msgs st :
  regular st ->
  regular (foldl (fun st m => processRules nd (set_count count m) st) st msgs).
Proof.
  revert st. induction msgs as [|x msgs IH]; intros st Hreg; [exact Hreg|].
  simpl. apply IH, processRules_regular, Hreg.
Qed.

Lemma input_regular st m : regular st -> regular (input nd st m).
Proof.
  intros Hreg. destruct (needsCount nd && hasParts m) eqn:Hb.
  - apply andb_true_iff in Hb as [Hn Hh].
    destruct (hasParts_inv m Hh) as (ps & id & ix & Hps & Hid & Hix).
    assert (Hix' : has (p_index ps) = true) by (rewrite Hix; reflexivity).
    destruct (input_fragment nd id m ps st Hn Hps Hid Hix') as (st1 & Heq & ->).
    destruct (addMessageToGroup_spec id m ps st) as (st1' & Heq' & Hq & Hcases).
    rewrite Heq in Heq'. injection Heq' as <-.
    assert (Hst1 : regular st1).
    { apply (regular_same st); [|destruct Hq as (_ & -> & _); reflexivity|exact Hreg].
      destruct Hcases as [(_ & _ & -> & _)|(_ & _ & -> & _)]; auto. }
    destruct (strict_eq _ _); [|exact Hst1].
    cbv zeta. eapply regular_same; [left; reflexivity|reflexivity|].
    apply release_regular, Hst1.
  - unfold input, processMessage.
    replace (needsCount nd && true && hasParts m) with false
      by (rewrite andb_true_r; symmetry; exact Hb).
    apply processRules_regular, Hreg.
Qed.

(** In exhaustive mode the decision arrays that wait in [pendingOut]
    are always such as [sendGroup] regroups correctly: each has a slot
    for every rule of the node, and the messages they hold are
    fragments. *)
Theorem pendingOut_holds_regular_arrays ms st :
  regular st -> regular (inputs nd ms st).
Proof.
  revert st. induction ms as [|m ms IH]; intros st Hreg; [exact Hreg|].
  unfold inputs. simpl. fold (inputs nd ms (input nd st m)).
  apply IH, input_regular, Hreg.
Qed.

End Regular.

End Join.

(** ** The tally of the join side *)

Section Tally.
Context {RT : runtime} {RED : host}.
Variable nd : node.

Lemma tallied_same st st' :
  (pendingOut st' = pendingOut st /\ received st' = received st) \/
  (pendingOut st' = ∅ /\ received st' = ∅) ->
  tallied st -> tallied st'.
Proof.
  intros [[Hp Hr]|[Hp Hr]] Ht gid; rewrite Hp, Hr.
  - apply Ht.
  - rewrite !lookup_empty. reflexivity.
Qed.

Lemma sendGroupMessages_tallied onward m st :
  tallied st -> tallied (sendGroupMessages onward m st).1.
Proof.
  intros Ht. unfold sendGroupMessages. destruct (m_parts m) as [ps|]; [|exact Ht].
  set (gid0 := default "undefined" (p_id ps)).
  set (n := default 0 (received st !! gid0) + 1).
  cbn [pendingOut with_received].
  set (ows := onwards (default {| onwards := [] |} (pendingOut st !! gid0)) ++ [onward]).
  assert (Hn : n = Z.of_nat (length ows)).
  { subst n ows. rewrite (Ht gid0), length_app. simpl.
    destruct (pendingOut st !! gid0); simpl; lia. }
  assert (Hins : forall gid,
            <[gid0:=n]> (received st) !! gid
            = (fun g => Z.of_nat (length (onwards g))) <$>
              (<[gid0:={| onwards := ows |}]> (pendingOut st) !! gid)).
  { intros gid. destruct (decide (gid0 = gid)) as [<-|Hne].
    - rewrite !lookup_insert_eq. simpl. rewrite Hn. reflexivity.
    - rewrite !lookup_insert_ne by exact Hne. apply Ht. }
  assert (Hdel : forall gid,
            delete gid0 (<[gid0:=n]> (received st)) !! gid
            = (fun g => Z.of_nat (length (onwards g))) <$>
              (delete gid0 (<[gid0:={| onwards := ows |}]> (pendingOut st)) !! gid)).
  { intros gid. destruct (decide (gid0 = gid)) as [<-|Hne].
    - rewrite !lookup_delete_eq. reflexivity.
    - rewrite !lookup_delete_ne by exact Hne. apply Hins. }
  match goal with |- context [sendGroup ows (length onward) ?s] =>
    pose proof (sendGroup_frame ows (length onward) s) as (_ & F2 & F3 & _);
    destruct (sendGroup ows (length onward) s) as [st1 e] end.
  cbn [fst pendingOut received with_pendingCount with_pendingOut with_received] in F2, F3.
  destruct (strict_eq _ _).
  - destruct e as [e|]; cbn [fst].
    + intros gid. rewrite F2, F3. apply Hins.
    + match goal with |- context [overflow ?s] => destruct (overflow s) end; cbn [fst].
      * intros gid. cbn. rewrite !lookup_empty. reflexivity.
      * intros gid. cbn. rewrite F2, F3. apply Hdel.
  - match goal with |- context [overflow ?s] => destruct (overflow s) end; cbn [fst].
    + intros gid. cbn. rewrite !lookup_empty. reflexivity.
    + intros gid. cbn. apply Hins.
Qed.

Lemma processRules_tallied m st : tallied st -> tallied (processRules nd m st).
Proof.
  intros Ht. unfold processRules.
  destruct (getProperty nd m) as [prop|]; [|exact Ht].
  cbn [previousValue rules emit].
  destruct (applyRules nd (previousValue st) prop m true (rules st))
    as [rs' [f ow| |e]]; try exact Ht.
  destruct (negb (repair nd) || negb (hasParts m)); [exact Ht|].
  match goal with |- context [sendGroupMessages ow m ?s] =>
    pose proof (sendGroupMessages_tallied ow m s Ht) as Hs;
    destruct (sendGroupMessages ow m s) as [st1 e] end.
  destruct e; exact Hs.
Qed.

Lemma release_tallied count msgs st :
  tallied st ->
  tallied (foldl (fun st m => processRules nd (set_count count m) st) st msgs).
Proof.
  revert st. induction msgs as [|x msgs IH]; intros st Ht; [exact Ht|].
  simpl. apply IH, processRules_tallied, Ht.
Qed.

Lemma input_tallied st m : tallied st -> tallied (input nd st m).
Proof.
  intros Ht. destruct (needsCount nd && hasParts m) eqn:Hb.
  - apply andb_true_iff in Hb as [Hn Hh].
    destruct (hasParts_inv m Hh) as (ps & id & ix & Hps & Hid & Hix).
    assert (Hix' : has (p_index ps) = true) by (rewrite Hix; reflexivity).
    destruct (input_fragment nd id m ps st Hn Hps Hid Hix') as (st1 & Heq & ->).
    destruct (addMessageToGroup_spec id m ps st) as (st1' & Heq' & Hq & Hcases).
    rewrite Heq in Heq'. injection Heq' as <-.
    assert (Hst1 : tallied st1).
    { apply (tallied_same st); [|exact Ht].
      destruct Hcases as [(_ & _ & -> & -> & _)|(_ & _ & -> & -> & _)]; auto. }
    destruct (strict_eq _ _); [|exact Hst1].
    cbv zeta. eapply tallied_same; [left; split; reflexivity|].
    apply release_tallied, Hst1.
  - unfold input, processMessage.
    replace (needsCount nd && true && hasParts m) with false
      by (rewrite andb_true_r; symmetry; exact Hb).
    apply processRules_tallied, Ht.
Qed.

(** Over any run, what [received] holds for a sequence is the number
    of its decision arrays that wait in [pendingOut], and a sequence
    is in the one exactly when it is in the other. *)
Theorem received_counts_waiting_arrays ms st :
  tallied st -> tallied (inputs nd ms st).
Proof.
  revert st. induction ms as [|m ms IH]; intros st Ht; [exact Ht|].
  unfold inputs. simpl. fold (inputs nd ms (input nd st m)).
  apply IH, input_tallied, Ht.
Qed.

End Tally.

(** ** A sequence through a node that repairs *)

Lemma reports_app tr1 tr2 : reports (tr1 ++ tr2) = reports tr1 ++ reports tr2.
Proof. apply List.filter_app. Qed.

Lemma reports_grow tr evs1 evs2 :
  reports ((tr ++ evs1) ++ evs2) = reports tr ->
  reports (tr ++ evs1) = reports tr /\ reports evs2 = [].
Proof.
  rewrite !reports_app, <- app_assoc. intros H.
  rewrite <- (app_nil_r (reports tr)) in H at 2.
  apply app_inv_head in H. apply app_eq_nil in H as [-> ->].
  rewrite app_nil_r. auto.
Qed.

Lemma set_count_member id n m : member id n m -> set_count (VInt n) m = m.
Proof.
  intros (ps & Hps & _ & _ & Hc). unfold set_count. rewrite Hps.
  destruct m as [fs p]. simpl in *. subst p. destruct ps as [i x c]. simpl in *.
  subst c. reflexivity.
Qed.

Section Repair.
Context {RT : runtime} {RED : host}.
Variable nd : node.
Hypothesis unbounded : getMaxKeptCount <= 0.

Lemma overflow_unbounded st : overflow st = false.
Proof.
  unfold overflow. destruct (Z.ltb_spec 0 getMaxKeptCount); [lia|reflexivity].
Qed.

(** A fragment that does not complete its sequence joins the fragments
    that wait, and nothing else changes. *)
Lemma input_gathers id n m st :
  needsCount nd = true -> member id n m ->
  Z.of_nat (length (held id st)) + 1 <> n ->
  let st' := input nd st m in
  trace st' = trace st /\ rules st' = rules st /\ fresh st' = fresh st /\
  pendingOut st' = pendingOut st /\ received st' = received st /\
  delete id (pendingIn st') = delete id (pendingIn st) /\
  held id st' = held id st ++ [m].
Proof.
  intros Hn (ps & Hps & Hid & Hix & Hc) Hlen. simpl.
  destruct (input_fragment nd id m ps st Hn Hps Hid Hix) as (st1 & Heq & ->).
  assert (Hfresh : fresh st1 = fresh st).
  { replace st1 with (addMessageToGroup id m ps st).2 by (rewrite Heq; reflexivity).
    unfold addMessageToGroup. repeat case_match; reflexivity. }
  destruct (addMessageToGroup_spec id m ps st) as (st1' & Heq' & Hq & Hcases).
  rewrite Heq in Heq'. injection Heq' as <-.
  destruct Hcases as [(Hov & _)|(_ & Hin & Hout & Hrec & _ & Htr)].
  { apply andb_true_iff in Hov as [Hov _]. apply Z.ltb_lt in Hov. lia. }
  assert (Hj : g_count (joined id m ps st) = VInt n /\
               g_msgs (joined id m ps st) = held id st ++ [m]).
  { unfold joined, held. rewrite Hc. simpl.
    destruct (pendingIn st !! id); auto. }
  destruct Hj as [Hj1 Hj2]. rewrite Hj1, Hj2, length_app. simpl.
  destruct (Z.eqb_spec n (Z.of_nat (length (held id st) + 1))) as [Heq0|_]; [lia|].
  destruct Hq as (_ & Hr & _).
  repeat split; try assumption.
  - rewrite Hin. apply delete_insert_eq.
  - unfold held at 1. rewrite Hin, lookup_insert_eq. simpl. exact Hj2.
Qed.

Lemma inputs_gather id n pre st :
  needsCount nd = true -> Forall (member id n) pre ->
  Z.of_nat (length (held id st) + length pre) < n ->
  let st' := inputs nd pre st in
  trace st' = trace st /\ rules st' = rules st /\ fresh st' = fresh st /\
  pendingOut st' = pendingOut st /\ received st' = received st /\
  delete id (pendingIn st') = delete id (pendingIn st) /\
  held id st' = held id st ++ pre.
Proof.
  intros Hn Hpre. revert st. induction Hpre as [|m pre Hm Hpre IH]; intros st Hlen.
  - simpl. rewrite app_nil_r. repeat split.
  - simpl in Hlen. unfold inputs. simpl. fold (inputs nd pre (input nd st m)).
    destruct (input_gathers id n m st Hn Hm) as (A1 & A2 & A3 & A4 & A5 & A6 & A7); [lia|].
    destruct (IH (input nd st m)) as (B1 & B2 & B3 & B4 & B5 & B6 & B7).
    { rewrite A7, length_app. simpl. lia. }
    simpl in *. rewrite B1, B2, B3, B4, B5, B6, B7, A7, <- app_assoc.
    repeat split; assumption.
Qed.

(** The join side, for a fragment that is not the last of its
    sequence: the decision array waits. *)
Lemma sendGroupMessages_stores onward m id n st :
  member id n m ->
  default 0 (received st !! id) + 1 <> n ->
  sendGroupMessages onward m st
  = (with_pendingCount (pendingCount st + 1)
       (with_pendingOut
          (<[id:={| onwards := onwards (default {| onwards := [] |} (pendingOut st !! id))
                               ++ [onward] |}]> (pendingOut st))
          (with_received (<[id:=default 0 (received st !! id) + 1]> (received st)) st)),
     None).
Proof.
  intros (ps & Hps & Hid & _ & Hc) Hne. unfold sendGroupMessages.
  rewrite Hps, Hid, Hc. change (default "undefined" (Some id)) with id.
  cbn [get pendingOut with_received].
  change (strict_eq (VInt (default 0 (received st !! id) + 1)) (VInt n))
    with (default 0 (received st !! id) + 1 =? n).
  destruct (Z.eqb_spec (default 0 (received st !! id) + 1) n) as [Heq|_]; [contradiction|].
  cbv beta iota zeta. rewrite overflow_unbounded. reflexivity.
Qed.

(** The join side, for the last fragment of a sequence whose decision
    arrays all have a slot for every port. *)
Lemma sendGroupMessages_sends onward m id n st :
  member id n m ->
  default 0 (received st !! id) + 1 = n ->
  let ows := onwards (default {| onwards := [] |} (pendingOut st !! id)) ++ [onward] in
  (forall ow, ow ∈ ows -> length ow = length onward /\ cloned ow) ->
  exists st',
    sendGroupMessages onward m st = (st', None) /\
    sent (trace st') =
    sent (trace st) ++
    imap (fun i ow =>
            map (regrouped (fun j => generateId (fresh st + j)%nat)
                           (fun j => routed j ([] ++ take i ows))
                           (fun j => routed j ows) ow)
                (seq 0 (length onward))) ows /\
    released (trace st') = released (trace st) /\
    reports (trace st') = reports (trace st) /\
    pendingOut st' = delete id (pendingOut st) /\
    received st' = delete id (received st) /\
    pendingIn st' = pendingIn st.
Proof.
  intros (ps & Hps & Hid & _ & Hc) Heq ows Hreg.
  pose proof (sendGroupMessages_quiet onward m st) as Hq.
  unfold sendGroupMessages in *.
  rewrite Hps, Hid, Hc in *. change (default "undefined" (Some id)) with id in *.
  cbn [get pendingOut with_received] in *.
  fold ows in Hq |- *.
  change (strict_eq (VInt (default 0 (received st !! id) + 1)) (VInt n))
    with (default 0 (received st !! id) + 1 =? n) in *.
  rewrite (proj2 (Z.eqb_eq _ _) Heq) in *.
  match goal with |- context [sendGroup ows (length onward) ?s] =>
    destruct (sendGroup_sends ows (length onward) s Hreg) as (st1 & Hrun & Hs);
    pose proof (sendGroup_frame ows (length onward) s) as (F1 & F2 & F3 & _ & _ & rows & F6)
  end.
  rewrite Hrun in *. cbn [fst] in F1, F2, F3, F6.
  rewrite overflow_unbounded in *.
  eexists. split; [reflexivity|].
  cbn [fst trace pendingOut received pendingIn fresh with_pendingCount with_pendingOut
       with_received] in *.
  split; [exact Hs|]. split; [apply quiet_released; exact Hq|].
  split; [|split; [|split]].
  - rewrite F6, reports_app.
    assert (Hr : reports (map EvSend rows) = []) by (clear; induction rows; auto).
    rewrite Hr. apply app_nil_r.
  - rewrite F2. apply delete_insert_eq.
  - rewrite F3. apply delete_insert_eq.
  - exact F1.
Qed.

Hypothesis repairs : repair nd = true.
Hypothesis exhaustive_mode : firstMatch nd = false.
Hypothesis clone_keeps_parts : forall m, m_parts m <> None -> m_parts (cloneMessage m) <> None.

Lemma member_hasParts id n m : member id n m -> hasParts m = true.
Proof.
  intros (ps & Hps & Hid & Hix & _). unfold hasParts. rewrite Hps, Hid, Hix. reflexivity.
Qed.

(** The evaluation of a fragment that reports nothing ran to its end
    and handed its decision array to the join side. *)
Lemma processRules_passes id n m s :
  member id n m ->
  reports (trace (processRules nd m s)) = reports (trace s) ->
  exists prop rules' ow,
    decides (length (rules s)) m ow /\ length rules' = length (rules s) /\ cloned ow /\
    let s2 := with_previousValue prop (with_rules rules' (emit (EvRules m) s)) in
    processRules nd m s = (sendGroupMessages ow m s2).1 /\
    (sendGroupMessages ow m s2).2 = None.
Proof.
  intros Hm Hrep. pose proof (member_hasParts id n m Hm) as Hh.
  unfold processRules in *. destruct (getProperty nd m) as [prop|].
  - cbn [previousValue rules emit] in *.
    pose proof (applyRules_length nd (previousValue s) prop m true (rules s)) as Hlen.
    destruct (applyRules nd (previousValue s) prop m true (rules s))
      as [rs' [f ow| |e]] eqn:Hrun; cbn [fst] in Hlen.
    + rewrite repairs, Hh in *. cbn [negb orb] in *.
      exists prop, rs', ow.
      assert (Hdec : decides (length (rules s)) m ow).
      { split.
        - apply (applyRules_slots nd _ _ _ _ _ _ _ _ Hrun).
          unfold broke. rewrite exhaustive_mode. reflexivity.
        - intros slot Hin. apply list_elem_of_lookup_1 in Hin as [i Hi].
          apply (applyRules_slot_values nd _ _ _ _ _ _ _ _ _ _ Hrun Hi). }
      split; [exact Hdec|]. split; [exact Hlen|]. split.
      { intros m' Hin. destruct Hdec as [_ Hd].
        destruct (Hd _ Hin) as [?|Heq]; [discriminate|]. injection Heq as ->.
        apply clone_keeps_parts. destruct Hm as (ps & -> & _). discriminate. }
      cbv zeta.
      match goal with |- context [sendGroupMessages ow m ?s2] =>
        pose proof (sendGroupMessages_frame ow m s2) as (evs & Ht & _);
        destruct (sendGroupMessages ow m s2) as [st1 e] end.
      cbn [fst snd trace with_previousValue with_rules emit] in *.
      destruct e as [e|]; [exfalso|auto].
      cbn [trace emit] in Hrep. rewrite Ht, <- (app_assoc (trace s)) in Hrep.
      apply reports_grow in Hrep as [_ Hrep]. discriminate Hrep.
    + exfalso. cbn [trace emit with_rules] in Hrep.
      apply reports_grow in Hrep as [_ Hrep]. discriminate Hrep.
    + exfalso. cbn [trace emit with_rules] in Hrep.
      apply reports_grow in Hrep as [_ Hrep]. discriminate Hrep.
  - exfalso. cbn [trace emit] in Hrep.
    apply reports_grow in Hrep as [_ Hrep]. discriminate Hrep.
Qed.

(** The release of the fragments [rest] of a sequence of [n], of
    which the decision arrays [done] wait already. *)
Lemma release_collects id n rest :
  forall done s,
    Forall (member id n) rest -> rest <> [] ->
    Z.of_nat (length done + length rest) = n ->
    onwards (default {| onwards := [] |} (pendingOut s !! id)) = done ->
    default 0 (received s !! id) = Z.of_nat (length done) ->
    (forall ow, ow ∈ done -> length ow = length (rules s) /\ cloned ow) ->
    let s' := foldl (fun st m => processRules nd (set_count (VInt n) m) st) s rest in
    reports (trace s') = reports (trace s) ->
    exists ows,
      Forall2 (decides (length (rules s))) rest ows /\
      sent (trace s') =
      sent (trace s) ++
      imap (fun i ow =>
              map (regrouped (fun j => generateId (fresh s + j)%nat)
                             (fun j => routed j ([] ++ take i (done ++ ows)))
                             (fun j => routed j (done ++ ows)) ow)
                  (seq 0 (length (rules s)))) (done ++ ows) /\
      released (trace s') = released (trace s) ++ rest /\
      pendingOut s' = delete id (pendingOut s) /\
      received s' = delete id (received s) /\
      pendingIn s' = pendingIn s.
Proof.
  induction rest as [|m rest IH]; intros done s Hrest Hne Hlen Hout Hrec Hreg s' Hrep;
    [contradiction|].
  apply Forall_cons in Hrest as [Hm Hrest].
  subst s'. cbn [foldl] in *. rewrite (set_count_member id n m Hm) in *.
  destruct (processRules_frame nd m s) as (evs1 & Ht1 & _).
  destruct (release_frame nd (VInt n) rest (processRules nd m s)) as (evs2 & Ht2 & _).
  cbv zeta in Ht1, Ht2. rewrite Ht2, Ht1 in Hrep.
  apply reports_grow in Hrep as [Hrep1 Hrep2]. rewrite <- Ht1 in Hrep1.
  destruct (processRules_passes id n m s Hm Hrep1)
    as (prop & rules' & ow & Hdec & Hrl & Hcl & Hrun & Hnone).
  cbv zeta in Hrun, Hnone.
  set (s2 := with_previousValue prop (with_rules rules' (emit (EvRules m) s))) in *.
  assert (Hrec2 : default 0 (received s2 !! id) = Z.of_nat (length done)) by exact Hrec.
  assert (Hout2 : onwards (default {| onwards := [] |} (pendingOut s2 !! id)) = done)
    by exact Hout.
  destruct rest as [|m2 rest].
  - (* the last fragment *)
    cbn [foldl]. simpl in Hlen.
    destruct (sendGroupMessages_sends ow m id n s2 Hm) as (st' & Hsend & Hs & Hr & _ & Ho & Hc & Hi).
    { rewrite Hrec2. lia. }
    { rewrite Hout2. intros ow' Hin. destruct Hdec as [Hd _]. rewrite Hd.
      apply elem_of_app in Hin as [Hin|Hin]; [apply Hreg; exact Hin|].
      apply list_elem_of_singleton in Hin. subst ow'. auto. }
    rewrite Hsend in Hrun. cbn [fst] in Hrun. rewrite Hrun.
    exists [ow]. split; [constructor; [exact Hdec|constructor]|].
    rewrite Hout2 in Hs. destruct Hdec as [Hd _]. rewrite Hd in Hs.
    split; [|split; [|split; [|split]]].
    + rewrite Hs. subst s2. cbn [trace fresh with_previousValue with_rules emit].
      rewrite sent_app. simpl. rewrite app_nil_r. reflexivity.
    + rewrite Hr. subst s2. cbn [trace with_previousValue with_rules emit].
      rewrite released_app. reflexivity.
    + exact Ho.
    + exact Hc.
    + exact Hi.
  - (* a fragment that is not the last *)
    assert (Hstore := sendGroupMessages_stores ow m id n s2 Hm).
    rewrite Hrec2, Hout2 in Hstore.
    assert (Hne2 : Z.of_nat (length done) + 1 <> n) by (simpl in Hlen; lia).
    specialize (Hstore Hne2).
    rewrite Hstore in Hrun. cbn [fst] in Hrun.
    set (s1 := processRules nd m s) in *.
    destruct (IH (done ++ [ow]) s1) as (ows & Hf & Hs & Hr & Ho & Hc & Hi).
    + exact Hrest.
    + discriminate.
    + rewrite length_app. simpl in Hlen |- *. lia.
    + rewrite Hrun. cbn [pendingOut with_pendingCount with_pendingOut].
      rewrite lookup_insert_eq. reflexivity.
    + rewrite Hrun. cbn [received with_pendingCount with_pendingOut with_received].
      rewrite lookup_insert_eq, length_app. simpl. lia.
    + intros ow' Hin. rewrite Hrun.
      cbn [rules with_pendingCount with_pendingOut with_received]. subst s2.
      cbn [rules with_previousValue with_rules]. rewrite Hrl.
      apply elem_of_app in Hin as [Hin|Hin]; [apply Hreg; exact Hin|].
      apply list_elem_of_singleton in Hin. subst ow'. destruct Hdec as [Hd _]. auto.
    + rewrite Ht2, reports_app, Hrep2. apply app_nil_r.
    + assert (Hrules : length (rules s1) = length (rules s)).
      { rewrite Hrun. subst s2. exact Hrl. }
      assert (Hfresh : fresh s1 = fresh s) by (rewrite Hrun; reflexivity).
      assert (Htr : trace s1 = trace s ++ [EvRules m]) by (rewrite Hrun; reflexivity).
      rewrite Hrules, Hfresh, Htr, <- !app_assoc in *.
      exists (ow :: ows). split; [constructor; assumption|].
      split; [|split; [|split; [|split]]].
      * rewrite Hs, sent_app. simpl. rewrite app_nil_r. reflexivity.
      * rewrite Hr, released_app, <- app_assoc. reflexivity.
      * rewrite Ho, Hrun. cbn [pendingOut with_pendingCount with_pendingOut].
        apply delete_insert_eq.
      * rewrite Hc, Hrun. cbn [received with_pendingCount with_pendingOut with_received].
        apply delete_insert_eq.
      * rewrite Hi, Hrun. reflexivity.
Qed.

(** A whole sequence through a node that repairs sequences, in
    exhaustive mode and without a bound on the buffers. The fragments
    of the sequence [id], each announcing their number, arrive at a
    node that holds nothing of that sequence. When the run reports
    neither an error nor a warning, the fragments enter the rule engine
    in the order of their arrival, once the last one is there; each
    gets a decision array with a slot for every rule; and every port
    receives a sequence of its own: the copies of the fragments routed
    to it, in order, under the identity generated for the port,
    numbered from 0, with their number as count. Nothing of the
    sequence stays in the buffers. *)
Theorem repair_renumbers_each_port id ms st :
  needsCount nd = true ->
  ms <> [] -> Forall (member id (Z.of_nat (length ms))) ms ->
  pendingIn st !! id = None -> pendingOut st !! id = None -> received st !! id = None ->
  let st' := inputs nd ms st in
  reports (trace st') = reports (trace st) ->
  released (trace st') = released (trace st) ++ ms /\
  pendingIn st' = pendingIn st /\ pendingOut st' = pendingOut st /\
  received st' = received st /\
  exists ows new,
    Forall2 (decides (length (rules st))) ms ows /\
    sent (trace st') = sent (trace st) ++ new /\ length new = length ms /\
    forall j, (j < length (rules st))%nat ->
      port_output j new
      = imap (renumbered (generateId (fresh st + j)%nat)
                         (Z.of_nat (length (port_output j ows))))
             (port_output j ows).
Proof.
  intros Hn Hne Hms Hin Hout Hrec st' Hrep. subst st'.
  revert Hne Hms Hrep. induction ms as [|last pre _] using rev_ind; [contradiction|].
  intros Hne Hms Hrep.
  set (n := Z.of_nat (length (pre ++ [last]))) in *.
  apply Forall_app in Hms as [Hpre Hlast]. apply Forall_inv in Hlast.
  assert (Hheld : held id st = []) by (unfold held; rewrite Hin; reflexivity).
  assert (Hsplit : inputs nd (pre ++ [last]) st = input nd (inputs nd pre st) last).
  { unfold inputs. rewrite foldl_app. reflexivity. }
  rewrite Hsplit in *.
  destruct (inputs_gather id n pre st Hn Hpre) as (A1 & A2 & A3 & A4 & A5 & A6 & A7).
  { rewrite Hheld. subst n. rewrite length_app. simpl. lia. }
  cbv zeta in A1, A2, A3, A4, A5, A6, A7. rewrite Hheld in A7. simpl in A7.
  set (sta := inputs nd pre st) in *.
  destruct Hlast as (ps & Hps & Hid & Hix & Hc).
  destruct (input_fragment nd id last ps sta Hn Hps Hid Hix) as (st1 & Heq & Hinput).
  assert (Hfresh : fresh st1 = fresh sta).
  { replace st1 with (addMessageToGroup id last ps sta).2 by (rewrite Heq; reflexivity).
    unfold addMessageToGroup. repeat case_match; reflexivity. }
  destruct (addMessageToGroup_spec id last ps sta) as (st1' & Heq' & Hq & Hcases).
  rewrite Heq in Heq'. injection Heq' as <-.
  destruct Hcases as [(Hov & _)|(_ & B1 & B2 & B3 & _ & B5)].
  { apply andb_true_iff in Hov as [Hov _]. apply Z.ltb_lt in Hov. lia. }
  assert (Hj : g_count (joined id last ps sta) = VInt n /\
               g_msgs (joined id last ps sta) = pre ++ [last]).
  { unfold joined. rewrite Hc. simpl. split; [reflexivity|].
    rewrite <- A7. unfold held. destruct (pendingIn sta !! id); reflexivity. }
  destruct Hj as [Hj1 Hj2]. rewrite Hj1, Hj2 in Hinput.
  change (strict_eq (VInt n) (VInt (Z.of_nat (length (pre ++ [last])))))
    with (n =? n) in Hinput.
  rewrite Z.eqb_refl in Hinput. cbv zeta in Hinput.
  destruct Hq as (_ & Hrules1 & _).
  destruct (release_collects id n (pre ++ [last]) [] st1)
    as (ows & Hf & Hs & Hr & Ho & Hcv & Hi).
  - apply Forall_app. split; [exact Hpre|]. constructor; [|constructor].
    exists ps. auto.
  - exact Hne.
  - reflexivity.
  - rewrite B2, A4, Hout. reflexivity.
  - rewrite B3, A5, Hrec. reflexivity.
  - intros ow Hino. apply elem_of_nil in Hino. destruct Hino.
  - rewrite Hinput in Hrep. cbn [trace with_pendingIn with_pendingCount] in Hrep.
    rewrite Hrep, B5, A1. reflexivity.
  - rewrite Hinput. cbn [trace pendingIn pendingOut received with_pendingIn with_pendingCount].
    rewrite Hrules1, A2, Hfresh, A3, B5, A1 in *.
    split; [exact Hr|]. split; [|split; [|split]].
    + rewrite Hi, B1, delete_insert_eq, A6. apply delete_id. exact Hin.
    + rewrite Ho, B2, A4. apply delete_id. exact Hout.
    + rewrite Hcv, B3, A5. apply delete_id. exact Hrec.
    + eexists ows, _. split; [exact Hf|]. split; [exact Hs|]. split.
      * rewrite length_imap. simpl. symmetry. eapply Forall2_length. exact Hf.
      * intros j Hj. simpl app.
        rewrite (port_output_regrouped _ _ (length (rules st)) j [] ows Hj),
          routed_port_output.
        reflexivity.
Qed.

End Repair.

(** ** Rules that are not reached, and the rule tail *)

Section Reach.
Context {RT : runtime} {RED : host}.
Variable nd : node.

(** In first-match mode the rules after the first one that matches
    play no part: they are not evaluated, so that none of them can
    fail the pass, and they are left as they are. *)
Theorem first_match_skips_later_rules prev prop m f pre pre' f1 ow r r' post :
  firstMatch nd = true ->
  applyRules nd prev prop m f pre = (pre', Completed f1 ow) ->
  broke nd ow = false ->
  applyRule prev prop m f1 r = (r', Matched) ->
  applyRules nd prev prop m f (pre ++ r :: post)
  = (pre' ++ r' :: post, Completed false (ow ++ [Some m])).
Proof.
  intros Hfm Hpre Hb Hr. rewrite applyRules_app, Hpre, Hb. simpl.
  rewrite Hr, Hfm, foldr_push_app. reflexivity.
Qed.

Variables (r : rule) (k : Z).
Hypothesis kind : r_t r = t_tail.
Hypothesis tag : r_vt r = Some "num".
Hypothesis operand1 : r_v r = OVal (VInt k).
Hypothesis operand2 : r_v2 r = OVal VUndefined.
Hypothesis tag2 : r_v2t r = None.
Hypothesis number : forall x, evaluateNodeProperty (OVal (VInt k)) (Some "num") x = Some (VInt k).


Hypothesis no_repair : repair nd = false.




End Reach.

(** ** The node at work *)

Section Examples.
Import Sample.

(** Claim C3 as stated fails: the rule between 0 and the expression
    $error(), which fails, does not get undefined for operand 2; the
    evaluation of the message is aborted. *)
Lemma operand2_expression_failure_is_reported :
  ~ (forall (RT : runtime) (RED : host) prev m r exp,
       tag_is (r_v2t r) "jsonata" = true -> r_v2 r = OExpr exp ->
       evaluateJSONataExpression exp m = None ->
       getV2 prev m r = Some VUndefined) /\
  let st := first_state [rule2 t_btwn (VInt 0) (VStr "$error()") (Some "jsonata")] in
  let m := plain (VInt 5) in
  aborted (RT:=RT) (RED:=RED None) exhaustive m st = true /\
  trace (processRules (RT:=RT) (RED:=RED None) exhaustive m st)
  = [EvRules m; EvError invalid_expr None].
Proof.
  split; [|split; reflexivity].
  intros H.
  pose (st := first_state [rule2 t_btwn (VInt 0) (VStr "$error()") (Some "jsonata")]).
  discriminate (H RT (RED None) VNull (plain (VInt 5))
                  (nth 0 (rules st) (rule1 t_true VUndefined))
                  {| j_source := "$error()"; j_bindings := ∅ |}
                  eq_refl eq_refl eq_refl).
Qed.

(** Claim C3, an instance: the failing expression is the operand 2 of
    the second rule; the error is reported and nothing is sent. *)
Lemma operand2_expression_failure_aborts_witness :
  let st := first_state [rule1 t_true VUndefined;
                         rule2 t_btwn (VInt 0) (VStr "$error()") (Some "jsonata")] in
  let m := plain (VInt 5) in
  let st' := processRules (RT:=RT) (RED:=RED None) exhaustive m st in
  trace st' = [EvRules m; EvError invalid_expr None] /\
  previousValue st' = VNull /\
  sent (trace st') = [].
Proof.
  intros st m st'.
  destruct (operand2_expression_failure_aborts (RT:=RT) (RED:=RED None)
              exhaustive m st (VInt 5)
              (normalised [rule1 t_true VUndefined])
              (normalised [rule1 t_true VUndefined]) true [None]
              (nth 1 (rules st) (rule1 t_true VUndefined)) []
              {| j_source := "$error()"; j_bindings := ∅ |})
    as (_ & Ht & Hp & _); try reflexivity.
  fold st' in Ht, Hp. split; [exact Ht|]. split; [exact Hp|].
  rewrite Ht. reflexivity.
Defined.



(** Claim C8, an instance: the pattern of the second rule is not a
    regular expression; the first rule matched, and yet nothing is sent
    and [previousValue] stays 7. *)
Lemma evaluation_error_aborts_witness :
  let st := with_previousValue (VInt 7)
              (first_state [rule1 t_true VUndefined; rule1 t_regex (VStr "(")]) in
  let m := plain (VBool true) in
  let st' := processRules (RT:=RT) (RED:=RED None) exhaustive m st in
  aborted (RT:=RT) (RED:=RED None) exhaustive m st = true /\
  trace st' = [EvRules m; EvWarn SyntaxError] /\
  sent (trace st') = [] /\ previousValue st' = VInt 7.
Proof.
  intros st m st'.
  assert (Hab : aborted (RT:=RT) (RED:=RED None) exhaustive m st = true) by reflexivity.
  destruct (evaluation_error_aborts (RT:=RT) (RED:=RED None) exhaustive m st Hab)
    as ((report & Ht & _) & Hs & Hp & _).
  fold st' in Ht, Hs, Hp.
  split; [exact Hab|]. split; [reflexivity|]. split; [exact Hs|exact Hp].
Defined.


(** Claim C5, an instance: the fragments of a group of three arrive
    with the indices 2, 0 and 1, the count on the second of them.
    Nothing is released before the third arrives; then the three are
    released in the order 2, 0, 1, each with the count 3. *)
Lemma split_side_release_witness :
  let st := inputs (RT:=RT) (RED:=RED None) counting
              [frag (VStr "c") "g" 2 None; frag (VStr "a") "g" 0 (Some 3)]
              (first_state [rule1 t_tail (VInt 1)]) in
  let m := frag (VStr "b") "g" 1 None in
  let st' := input (RT:=RT) (RED:=RED None) counting st m in
  released (trace st) = [] /\
  released (trace st') =
    [frag (VStr "c") "g" 2 (Some 3); frag (VStr "a") "g" 0 (Some 3);
     frag (VStr "b") "g" 1 (Some 3)] /\
  pendingIn st' !! "g" = None.
Proof.
  intros st m st'.
  pose proof (split_side_release (RT:=RT) (RED:=RED None) counting "g" m
                {| p_id := Some "g"; p_index := Some (VInt 1); p_count := None |} st
                eq_refl eq_refl eq_refl eq_refl) as H.
  fold st' in H. split; [reflexivity|]. exact H.
Defined.

(** Claim C1 fails on the code. The bound is 1 and a fragment of the
    group g waits; the second fragment, which declares the count 2,
    makes the buffered count exceed the bound. The buffers are emptied
    and the overflow is reported once, but [addMessageToPending] goes on
    with the group it holds: both fragments are released into the rule
    engine and sent, and [pendingCount] ends at -2. *)
Lemma overflow_releases_completed_group :
  let c := cfg [rule1 t_tail (VInt 1)] (VStr "true") false in
  let f0 := frag (VBool true) "g" 0 None in
  let f1 := frag (VBool true) "g" 1 (Some 2) in
  (pendingCount <$> run (Some 1) c [f0]) = Some 1 /\
  (trace <$> run (Some 1) c [f0]) = Some [] /\
  (trace <$> run (Some 1) c [f0; f1]) =
    Some [EvError too_many (Some f1);
          EvRules (set_count (VInt 2) f0); EvSend [None];
          EvRules f1; EvSend [Some f1]] /\
  (pendingCount <$> run (Some 1) c [f0; f1]) = Some (-2) /\
  (buffered <$> run (Some 1) c [f0; f1]) = Some 0.
Proof. vm_compute. repeat split. Qed.

(** Claim C4 fails on the code. A message without [parts] makes the
    head operator read [parts.index] of undefined: the TypeError is
    caught and reported, and the message is dropped, although the
    second rule matches it (alone, that rule forwards the message). *)
Lemma positional_rule_without_parts_throws :
  let c := cfg [rule1 t_head (VInt 1); rule1 t_true VUndefined] (VStr "true") false in
  let m := plain (VBool true) in
  (needsCount <$> (fst <$> boot None c)) = Some false /\
  (trace <$> run None c [m]) = Some [EvRules m; EvWarn TypeError] /\
  (sent <$> (trace <$> run None c [m])) = Some [] /\
  (trace <$> run None (cfg [rule1 t_true VUndefined] (VStr "true") false) [m]) =
    Some [EvRules m; EvSend [Some m]].
Proof. vm_compute. repeat split. Qed.

(** Claim C6 fails on the code. In first-match mode the decision array
    of fragment 0, which matched rule 0, has one slot; [sendGroup]
    counts its missing slot for port 1, since undefined is not null. The
    message sent to port 1 is the only one of its sequence and carries
    the count 2. *)
Lemma regrouped_count_in_first_match_mode :
  let c := cfg [rule1 t_eq (VInt 0); rule1 t_eq (VInt 1)] (VStr "false") true in
  let f0 := frag (VInt 0) "g" 0 (Some 2) in
  let f1 := frag (VInt 1) "g" 1 (Some 2) in
  (sent <$> (trace <$> run None c [f0; f1])) =
    Some [[Some {| m_fields := [("payload", VInt 0)];
                   m_parts := Some {| p_id := Some "0"; p_index := Some (VInt 0);
                                      p_count := Some (VInt 1) |} |};
           None];
          [None;
           Some {| m_fields := [("payload", VInt 1)];
                   m_parts := Some {| p_id := Some "1"; p_index := Some (VInt 0);
                                      p_count := Some (VInt 2) |} |}]].
Proof. vm_compute. reflexivity. Qed.

(** Claim C9 fails on the code. A group of two fragments goes through
    a node with one rule that repairs sequences. When it is sent,
    [pendingCount] is decreased by the number of ports instead of the
    number of decision arrays: both buffers are empty and the counter
    is 1. *)
Lemma pendingCount_leaks :
  let c := cfg [rule1 t_true VUndefined] (VStr "true") true in
  let f0 := frag (VBool true) "g" 0 (Some 2) in
  let f1 := frag (VBool true) "g" 1 (Some 2) in
  (pendingIn <$> run None c [f0; f1]) = Some ∅ /\
  (pendingOut <$> run None c [f0; f1]) = Some ∅ /\
  (buffered <$> run None c [f0; f1]) = Some 0 /\
  (pendingCount <$> run None c [f0; f1]) = Some 1.
Proof. vm_compute. repeat split. Qed.

(** An instance: three rules, of which the first and the third match. *)
Lemma exhaustive_array_covers_rules_witness :
  let rs := normalised [rule1 t_true VUndefined; rule1 t_false VUndefined;
                        rule1 t_true VUndefined] in
  let m := plain (VBool true) in
  exists rs' f' onward,
    applyRules (RT:=RT) (RED:=RED None) exhaustive VNull (VBool true) m true rs
    = (rs', Completed f' onward) /\
    onward = [Some m; None; Some m] /\
    length onward = length rs.
Proof.
  intros rs m. exists rs, false, [Some m; None; Some m].
  assert (H : applyRules (RT:=RT) (RED:=RED None) exhaustive VNull (VBool true) m true rs
              = (rs, Completed false [Some m; None; Some m])) by (vm_compute; reflexivity).
  split; [exact H|]. split; [reflexivity|].
  apply (exhaustive_array_covers_rules (RT:=RT) (RED:=RED None) exhaustive
           VNull (VBool true) m true rs rs false _ eq_refl H).
Defined.

(** An instance: the bound is 1, a fragment waits, and a second
    fragment arrives without a count. *)
Lemma overflow_drops_incomplete_group_witness :
  let st := inputs (RT:=RT) (RED:=RED (Some 1)) counting
              [frag (VStr "a") "g" 0 None] (first_state [rule1 t_tail (VInt 1)]) in
  let m := frag (VStr "b") "g" 1 None in
  let st' := input (RT:=RT) (RED:=RED (Some 1)) counting st m in
  pendingCount st = 1 /\
  trace st' = [EvError too_many (Some m)] /\
  pendingIn st' = ∅ /\ pendingOut st' = ∅ /\ received st' = ∅ /\
  pendingCount st' = 0 /\ previousValue st' = VNull.
Proof.
  intros st m st'. split; [reflexivity|].
  apply (overflow_drops_incomplete_group (RT:=RT) (RED:=RED (Some 1)) counting "g" m
           {| p_id := Some "g"; p_index := Some (VInt 1); p_count := None |} st);
    reflexivity.
Defined.

(** An instance: of two fragments the first goes to port 0 and the
    second to port 1; each port gets a sequence of one message. *)
Lemma sendGroup_regroups_witness :
  let a := frag (VInt 0) "g" 0 (Some 2) in
  let b := frag (VInt 1) "g" 1 (Some 2) in
  let st := first_state [] in
  exists st',
    sendGroup (RED:=RED None) [[Some a; None]; [None; Some b]] 2 st = (st', None) /\
    sent (trace st') =
      [[Some {| m_fields := [("payload", VInt 0)];
                m_parts := Some {| p_id := Some "0"; p_index := Some (VInt 0);
                                   p_count := Some (VInt 1) |} |};
        None];
       [None;
        Some {| m_fields := [("payload", VInt 1)];
                m_parts := Some {| p_id := Some "1"; p_index := Some (VInt 0);
                                   p_count := Some (VInt 1) |} |}]].
Proof.
  intros a b st.
  destruct (sendGroup_regroups (RED:=RED None) [[Some a; None]; [None; Some b]] 2 st)
    as (st' & Hrun & _ & Hs).
  { intros ow Hin.
    apply elem_of_cons in Hin as [->|Hin];
      [|apply elem_of_cons in Hin as [->|Hin]; [|apply elem_of_nil in Hin; destruct Hin]].
    - split; [reflexivity|]. intros m Hm.
      apply elem_of_cons in Hm as [[= ->]|Hm]; [discriminate|].
      apply elem_of_cons in Hm as [Hm|Hm]; [discriminate|].
      apply elem_of_nil in Hm. destruct Hm.
    - split; [reflexivity|]. intros m Hm.
      apply elem_of_cons in Hm as [Hm|Hm]; [discriminate|].
      apply elem_of_cons in Hm as [[= ->]|Hm]; [discriminate|].
      apply elem_of_nil in Hm. destruct Hm. }
  exists st'. split; [exact Hrun|]. rewrite Hs. reflexivity.
Defined.

(** An instance: the second rule holds the number 3 where an
    expression is expected. *)
Lemma refused_expression_disables_node_witness :
  let n := cfg [rule1 t_true VUndefined;
                {| r_t := t_eq; r_v := OVal (VInt 3); r_vt := Some "jsonata";
                   r_v2 := OVal VUndefined; r_v2t := None; r_case := VUndefined |}]
             (VStr "true") false in
  (SwitchNode (RT:=RT) (RED:=RED None) n).1 = None /\
  (SwitchNode (RT:=RT) (RED:=RED None) n).2 <> [].
Proof.
  intros n.
  apply (refused_expression_disables_node (RT:=RT) (RED:=RED None) n).
  right. eexists. split; [right; left|]. split; reflexivity.
Defined.

(** The type name object on the null value. *)
Lemma istype_by_name_witness :
  istype (RT:=RT) VNull (VStr "object") = true <->
  typeof VNull = "object" /\ isArray VNull = false /\ isBuffer VNull = false /\
  VNull <> VNull.
Proof.
  apply (istype_by_name (RT:=RT) VNull "object"); discriminate.
Defined.

(** The property a message lacks, against the operand 5. *)
Lemma comparisons_reject_undefined_witness :
  operators (RT:=RT) t_lt VUndefined (VInt 5) VUndefined VUndefined None = inr false /\
  operators (RT:=RT) t_lte VUndefined (VInt 5) VUndefined VUndefined None = inr false /\
  operators (RT:=RT) t_gt VUndefined (VInt 5) VUndefined VUndefined None = inr false /\
  operators (RT:=RT) t_gte VUndefined (VInt 5) VUndefined VUndefined None = inr false /\
  operators (RT:=RT) t_btwn VUndefined (VInt 5) VUndefined VUndefined None = inr false /\
  (operators (RT:=RT) t_eq VUndefined (VInt 5) VUndefined VUndefined None = inr true ->
   VUndefined = VUndefined /\ (VInt 5 = VUndefined \/ VInt 5 = VNull)).
Proof.
  apply (comparisons_reject_undefined (RT:=RT) VUndefined (VInt 5) VUndefined VUndefined None).
  left. reflexivity.
Defined.

(** The rules true, else on a payload that is false: the else rule
    takes the message. *)
Lemma trailing_else_catches_the_rest_witness :
  let pre := normalised [rule1 t_true VUndefined] in
  let r := {| r_t := t_else; r_v := OVal VUndefined; r_vt := Some "str";
              r_v2 := OVal VUndefined; r_v2t := None; r_case := VUndefined |} in
  let m := plain (VBool false) in
  let onward := [None; Some m] in
  length onward = S (length pre) /\
  Some m ∈ onward /\
  (onward !! length pre = Some (Some m) <-> Some m ∉ take (length pre) onward).
Proof.
  intros pre r m onward.
  apply (trailing_else_catches_the_rest (RT:=RT) (RED:=RED None) exhaustive
           VNull (VBool false) m pre r (pre ++ [r]) false onward).
  - reflexivity.
  - reflexivity.
  - reflexivity.
  - vm_compute. reflexivity.
Defined.

(** The rules false, else, true in first-match mode on a payload that
    is true: the else rule takes the message, the last rule is not
    reached. *)
Lemma first_match_else_routes_once_witness :
  let pre := normalised [rule1 t_false VUndefined] in
  let r := {| r_t := t_else; r_v := OVal VUndefined; r_vt := Some "str";
              r_v2 := OVal VUndefined; r_v2t := None; r_case := VUndefined |} in
  let post := normalised [rule1 t_true VUndefined] in
  let m := plain (VBool true) in
  exists k, (k <= length pre)%nat /\ [None; Some m] = replicate k None ++ [Some m].
Proof.
  intros pre r post m.
  apply (first_match_else_routes_once (RT:=RT) (RED:=RED None) first_match
           VNull (VBool true) m pre r post (pre ++ r :: post) false [None; Some m]).
  - reflexivity.
  - reflexivity.
  - vm_compute. reflexivity.
Defined.


(** The fragment 0 of a sequence of two, after a reset of a node that
    had counted three messages. *)
Lemma fragment_after_reset_opens_group_witness :
  let m := frag (VBool true) "g" 0 (Some 2) in
  let st := with_pendingCount 3 (first_state [rule1 t_tail (VInt 1)]) in
  let st' := input (RT:=RT) (RED:=RED (Some 1)) counting (clearPending st) m in
  pendingIn st' = {[ "g" := {| g_count := VInt 2; g_msgs := [m]; g_seq_no := 0 |} ]} /\
  pendingCount st' = 1 /\ pendingOut st' = ∅ /\ received st' = ∅ /\
  trace st' = trace st /\ previousValue st' = previousValue st /\
  rules st' = rules st.
Proof.
  intros m st.
  apply (fragment_after_reset_opens_group (RT:=RT) (RED:=RED (Some 1)) counting "g" m
           {| p_id := Some "g"; p_index := Some (VInt 0); p_count := Some (VInt 2) |} st);
    reflexivity.
Defined.

(** Three fragments at a node whose setting is 0. *)
Lemma unbounded_buffer_never_overflows_witness :
  let st := first_state [rule1 t_tail (VInt 1)] in
  let ms := [frag (VBool true) "g" 0 None; frag (VBool true) "h" 0 None;
             frag (VBool true) "g" 1 None] in
  overflows (trace (inputs (RT:=RT) (RED:=RED (Some 0)) counting ms st))
  = overflows (trace st).
Proof.
  intros st ms.
  apply (unbounded_buffer_never_overflows (RT:=RT) (RED:=RED (Some 0)) counting ms st).
  vm_compute. discriminate.
Defined.

(** Two sequences that arrive interleaved; the sequence g is complete
    with its second fragment, the sequence h goes on waiting. *)
Lemma pendingIn_holds_incomplete_groups_witness :
  waiting (inputs (RT:=RT) (RED:=RED None) counting
             [frag (VBool true) "g" 0 None; frag (VBool true) "h" 0 (Some 3);
              frag (VBool true) "g" 1 (Some 2)]
             (first_state [rule1 t_tail (VInt 1)])).
Proof.
  apply (pendingIn_holds_incomplete_groups (RT:=RT) (RED:=RED None) counting).
  intros id g H. simpl in H. rewrite lookup_empty in H. discriminate H.
Defined.

(** The same run: one fragment is left waiting, and the counter is 1. *)
Lemma counter_is_exact_without_repair_witness :
  let st := inputs (RT:=RT) (RED:=RED None) counting
              [frag (VBool true) "g" 0 None; frag (VBool true) "h" 0 (Some 3);
               frag (VBool true) "g" 1 (Some 2)]
              (first_state [rule1 t_tail (VInt 1)]) in
  pendingCount st = buffered st.
Proof.
  apply (counter_is_exact_without_repair (RT:=RT) (RED:=RED None) counting).
  - reflexivity.
  - vm_compute. discriminate.
  - reflexivity.
Defined.

(** A configuration with the rules tail(1) and true, and the boolean
    false for checkall. *)
Lemma constructor_builds_the_node_witness :
  let n := cfg [rule1 t_tail (VInt 1); rule1 t_true VUndefined] (VBool false) false in
  exists nd st0,
    boot None n = Some (nd, st0) /\
    @nil event = [] /\
    repair nd = n_repair n /\
    needsCount nd = n_repair n || existsb counts_parts (n_rules n) /\
    firstMatch (RT:=RT) nd
    = truthy (n_checkall n) && loose_eq (RT:=RT) (n_checkall n) (VStr "false") /\
    Forall2 (fun r r' => r_t r' = r_t r /\ r_case r' = r_case r /\
                         unset (r_vt r') = false /\ prepared r')
            (n_rules n) (rules st0).
Proof.
  intros n.
  destruct (boot None n) as [[nd st0]|] eqn:Hboot; [|discriminate Hboot].
  exists nd, st0. split; [reflexivity|].
  apply (constructor_builds_the_node (RT:=RT) (RED:=RED None) n nd st0 []).
  unfold boot in Hboot. vm_compute in Hboot. injection Hboot as <- <-.
  vm_compute. reflexivity.
Defined.

(** Of two fragments the first goes to port 0 and the second to port
    1: port 1 receives a sequence of one message. *)
Lemma sendGroup_port_sequences_witness :
  let a := frag (VInt 0) "g" 0 (Some 2) in
  let b := frag (VInt 1) "g" 1 (Some 2) in
  let st := first_state [] in
  let ows := [[Some a; None]; [None; Some b]] in
  exists st' new,
    sendGroup (RED:=RED None) ows 2 st = (st', None) /\
    sent (trace st') = sent (trace st) ++ new /\
    length new = length ows /\
    port_output 1 new
    = imap (renumbered (RED:=RED None) "1" 1) (port_output 1 ows).
Proof.
  intros a b st ows.
  apply (sendGroup_port_sequences (RED:=RED None) ows 2 st 1); [|lia].
  intros ow Hin.
  apply elem_of_cons in Hin as [->|Hin];
    [|apply elem_of_cons in Hin as [->|Hin]; [|apply elem_of_nil in Hin; destruct Hin]].
  - split; [reflexivity|]. intros m Hm.
    apply elem_of_cons in Hm as [[= ->]|Hm]; [discriminate|].
    apply elem_of_cons in Hm as [Hm|Hm]; [discriminate|].
    apply elem_of_nil in Hm. destruct Hm.
  - split; [reflexivity|]. intros m Hm.
    apply elem_of_cons in Hm as [Hm|Hm]; [discriminate|].
    apply elem_of_cons in Hm as [[= ->]|Hm]; [discriminate|].
    apply elem_of_nil in Hm. destruct Hm.
Defined.


(** A node that repairs sequences, after the first of two fragments. *)
Lemma pendingOut_holds_regular_arrays_witness :
  let nd := {| property := OVal (VStr "payload"); propertyType := "msg";
               checkall := VStr "true"; repair := true; needsCount := true |} in
  regular (inputs (RT:=RT) (RED:=RED None) nd
             [frag (VBool true) "g" 0 (Some 2)]
             (first_state [rule1 t_true VUndefined])).
Proof.
  intros nd.
  apply (pendingOut_holds_regular_arrays (RT:=RT) (RED:=RED None) nd eq_refl).
  intros gid g ow H. simpl in H. rewrite lookup_empty in H. discriminate H.
Defined.

(** A node that repairs sequences, after the first of two fragments. *)
Lemma received_counts_waiting_arrays_witness :
  let nd := {| property := OVal (VStr "payload"); propertyType := "msg";
               checkall := VStr "true"; repair := true; needsCount := true |} in
  tallied (inputs (RT:=RT) (RED:=RED None) nd
             [frag (VBool true) "g" 0 (Some 2)]
             (first_state [rule1 t_true VUndefined])).
Proof.
  intros nd.
  apply (received_counts_waiting_arrays (RT:=RT) (RED:=RED None) nd).
  intros gid. simpl. rewrite !lookup_empty. reflexivity.
Defined.

(** Two fragments through a node with the rules eq 0 and eq 1: the
    first goes to port 0, the second to port 1. *)
Lemma repair_renumbers_each_port_witness :
  let nd := {| property := OVal (VStr "payload"); propertyType := "msg";
               checkall := VStr "true"; repair := true; needsCount := true |} in
  let ms := [frag (VInt 0) "g" 0 (Some 2); frag (VInt 1) "g" 1 (Some 2)] in
  let st := first_state [rule1 t_eq (VInt 0); rule1 t_eq (VInt 1)] in
  let st' := inputs (RT:=RT) (RED:=RED None) nd ms st in
  released (trace st') = released (trace st) ++ ms /\
  pendingIn st' = pendingIn st /\ pendingOut st' = pendingOut st /\
  received st' = received st /\
  exists ows new,
    Forall2 (decides (length (rules st))) ms ows /\
    sent (trace st') = sent (trace st) ++ new /\ length new = length ms /\
    forall j, (j < length (rules st))%nat ->
      port_output j new
      = imap (renumbered (RED:=RED None) (@generateId (RED None) (fresh st + j)%nat)
                         (Z.of_nat (length (port_output j ows))))
             (port_output j ows).
Proof.
  intros nd ms st.
  apply (repair_renumbers_each_port (RT:=RT) (RED:=RED None) nd) with (id := "g").
  - vm_compute. discriminate.
  - reflexivity.
  - reflexivity.
  - intros m H. exact H.
  - reflexivity.
  - discriminate.
  - repeat constructor; eexists; repeat split; reflexivity.
  - reflexivity.
  - reflexivity.
  - reflexivity.
  - vm_compute. reflexivity.
Defined.

(** The rules false, true, regex in first-match mode on a payload that
    is true: the second rule matches, and the last rule, whose pattern
    is no regular expression, is not evaluated. *)
Lemma first_match_skips_later_rules_witness :
  let pre := normalised [rule1 t_false VUndefined] in
  let r := {| r_t := t_true; r_v := OVal VUndefined; r_vt := Some "str";
              r_v2 := OVal VUndefined; r_v2t := None; r_case := VUndefined |} in
  let post := normalised [rule1 t_regex (VStr "(")] in
  let m := plain (VBool true) in
  applyRules (RT:=RT) (RED:=RED None) first_match VNull (VBool true) m true
    (pre ++ r :: post)
  = (pre ++ r :: post, Completed false ([None] ++ [Some m])).
Proof.
  intros pre r post m.
  apply (first_match_skips_later_rules (RT:=RT) (RED:=RED None) first_match
           VNull (VBool true) m true pre pre true [None] r r post);
    reflexivity.
Defined.


End Examples.
